(** * NodeTranspiler: the transform result cache

    A shallow embedding of [NodeTranspiler] (the babel wrapper with its
    on-disk, content-addressed cache) and of [cacheWriteAsync], the
    asynchronous atomic write-back, together with the properties of the
    prefilter, the configuration digest, the transform step and the cache.

    Strings and Buffers are both modelled by [string] (a sequence of
    bytes): the prefixes are ASCII, and [toString] / the ['utf8'] encoding
    argument are the identity on that representation. *)

From Stdlib Require Import String Ascii List Arith Lia NArith.
From stdpp Require Import base option gmap strings list fin_maps.

Local Open Scope string_scope.
#[local] Arguments String.append !s1 s2 : simpl nomatch.

(** ** JavaScript strings *)

Module Js.

(** The double quote and the NUL character, which have no literal form. *)
Definition dquote : string := String "034"%char EmptyString.
Definition NUL : string := String "000"%char EmptyString.

(** [s.slice(0, n)] for a non-negative [n]. *)
Definition slice0 (n : nat) (s : string) : string := String.substring 0 n s.

(** [s.startsWith(p)]. *)
Definition startsWith (s p : string) : bool := String.prefix p s.

(** Truthiness of a string value: only the empty string is falsy. *)
Definition truthy (s : string) : bool :=
  match s with EmptyString => false | String _ _ => true end.

(** [Math.max.apply(Math, l)] on a non-empty list of lengths. *)
Definition max_of (l : list nat) : nat := fold_right Nat.max 0 l.

End Js.

(** ** Thrown values and results *)

Inductive Errno := ENOENT | EACCES | EISDIR | ENOTDIR.

(** Paths are kept normalised, as the list of their components from the
    root: [path.join] appends a component and [path.dirname] drops the
    last one. *)
Abbreviation Path := (list string).

Inductive Error :=
| FsError (code : Errno) (syscall : string) (p : Path)
| EngineError (diagnostic : string)
| AssertionError.

Inductive Result (A : Type) :=
| Ok (a : A)
| Throw (e : Error).
Arguments Ok {A} a.
Arguments Throw {A} e.

Definition path_join (dir : Path) (name : string) : Path := (dir ++ [name])%list.
Definition path_dirname (p : Path) : Path := removelast p.

(** ** The file system *)

Module Fs.

(** A node is a regular file with its contents or a directory.  One
    permission bit stands for the access rights of the process: an
    inaccessible file can be neither read nor overwritten, an
    inaccessible directory can be neither searched nor modified. *)
Inductive Node :=
| File (content : string) (accessible : bool)
| Dir (accessible : bool).

Abbreviation FS := (gmap Path Node).

(** Walks from the directory [cur] down the components [rest]: every
    directory on the way must exist and be searchable. *)
Fixpoint walk (fs : FS) (syscall : string) (cur : Path) (rest : list string)
  : Result unit :=
  match fs !! cur with
  | Some (Dir true) =>
      match rest with
      | [] => Ok tt
      | c :: rest' => walk fs syscall (path_join cur c) rest'
      end
  | Some (Dir false) => Throw (FsError EACCES syscall cur)
  | Some (File _ _) => Throw (FsError ENOTDIR syscall cur)
  | None => Throw (FsError ENOENT syscall cur)
  end.

(** Resolution of the directory that holds [p]. *)
Definition resolve_parent (fs : FS) (syscall : string) (p : Path) : Result unit :=
  match p with
  | [] => Ok tt
  | _ :: _ => walk fs syscall [] (removelast p)
  end.

Definition stat (fs : FS) (syscall : string) (p : Path) : Result Node :=
  match resolve_parent fs syscall p with
  | Throw e => Throw e
  | Ok _ =>
      match fs !! p with
      | Some n => Ok n
      | None => Throw (FsError ENOENT syscall p)
      end
  end.

(** [fs.existsSync]: any failure of the underlying [stat] reads as
    "absent". *)
Definition existsSync (fs : FS) (p : Path) : bool :=
  match stat fs "stat" p with
  | Ok _ => true
  | Throw _ => false
  end.

(** [fs.readFileSync]. *)
Definition readFileSync (fs : FS) (p : Path) : Result string :=
  match stat fs "open" p with
  | Throw e => Throw e
  | Ok (File c true) => Ok c
  | Ok (File _ false) => Throw (FsError EACCES "open" p)
  | Ok (Dir _) => Throw (FsError EISDIR "read" p)
  end.

(** [mkdirp]: creates the missing directories from [cur] downwards; a
    directory that already exists is not an error. *)
Fixpoint mkdirp_from (fs : FS) (cur : Path) (rest : list string) : Result FS :=
  match rest with
  | [] => Ok fs
  | c :: rest' =>
      match fs !! cur with
      | Some (Dir true) =>
          let next := path_join cur c in
          match fs !! next with
          | Some (Dir _) => mkdirp_from fs next rest'
          | Some (File _ _) => Throw (FsError ENOTDIR "mkdir" next)
          | None => mkdirp_from (<[next := Dir true]> fs) next rest'
          end
      | Some (Dir false) => Throw (FsError EACCES "mkdir" (path_join cur c))
      | Some (File _ _) => Throw (FsError ENOTDIR "mkdir" (path_join cur c))
      | None => Throw (FsError ENOENT "mkdir" (path_join cur c))
      end
  end.

Definition mkdirp (fs : FS) (dir : Path) : Result FS := mkdirp_from fs [] dir.

(** [fs.writeFile]: creates the file or replaces its contents. *)
Definition writeFile (fs : FS) (p : Path) (data : string) : Result FS :=
  match resolve_parent fs "open" p with
  | Throw e => Throw e
  | Ok _ =>
      match fs !! p with
      | None | Some (File _ true) => Ok (<[p := File data true]> fs)
      | Some (File _ false) => Throw (FsError EACCES "open" p)
      | Some (Dir _) => Throw (FsError EISDIR "open" p)
      end
  end.

(** [fs.rename] of a regular file: the entry moves in one step. *)
Definition rename (fs : FS) (old new : Path) : Result FS :=
  match stat fs "rename" old with
  | Throw e => Throw e
  | Ok (Dir _) => Throw (FsError EISDIR "rename" old)
  | Ok (File c a) =>
      match resolve_parent fs "rename" new with
      | Throw e => Throw e
      | Ok _ =>
          match fs !! new with
          | Some (Dir _) => Throw (FsError EISDIR "rename" new)
          | _ => Ok (<[new := File c a]> (delete old fs))
          end
      end
  end.

(** [fs.unlink]. *)
Definition unlink (fs : FS) (p : Path) : Result FS :=
  match stat fs "unlink" p with
  | Throw e => Throw e
  | Ok (Dir _) => Throw (FsError EISDIR "unlink" p)
  | Ok (File _ _) => Ok (delete p fs)
  end.

End Fs.

(** ** The prefilter *)

Definition PREFIXES : list string :=
  [ "'use babel'";
    Js.dquote ++ "use babel" ++ Js.dquote;
    "/* @flow */";
    "/** @babel */" ].

Definition PREFIX_LENGTH : nat := Js.max_of (map String.length PREFIXES).

Definition shouldCompile (bufferOrString : string) : bool :=
  let start := Js.slice0 PREFIX_LENGTH bufferOrString in
  existsb (fun prefix => Js.startsWith start prefix) PREFIXES.


(** ** The babel configuration and the services of the host *)

Record Options := {
  breakConfig : bool;
  blacklist : list string;
  optional : list string;
  stage : nat;
  plugins : list Path;
}.

(** [babel.transform(input, options).code]: the code, or the thrown
    diagnostic. *)
Definition Babel := string → Options → Result string.

(** What the module takes from Node and from its installation: the SHA-1
    hex digest of a byte stream, the stream of [uuid.v4()] values, the
    temporary directory, the module's own file name, module resolution,
    [JSON.stringify] on the options, and the bundled babel. *)
Class Runtime := {
  sha1_hex : string → string;
  sha1_hex_length : ∀ data, String.length (sha1_hex data) = 40;
  uuid_v4 : nat → string;
  os_tmpdir : Path;
  module_filename : Path;
  require_resolve : string → Path;
  JSON_stringify : Options → string;
  babel_core_version : string;
  babel_core : Babel;
}.

(** A streaming hash: [update] appends to the data hashed so far. *)
Module Hash.
Definition t := string.
Definition createHash : t := "".
Definition update (h : t) (data : string) : t := h ++ data.
Definition digest_hex `{Runtime} (h : t) : string := sha1_hex h.
End Hash.

(** ** The process: console, event loop and the transpiler object *)

Inductive LogArg :=
| LStr (s : string)
| LErr (e : Error).

(** The asynchronous operations of [cacheWriteAsync], each with the
    variables its callback closes over. *)
Inductive Task :=
| TMkdirp (basedir tmpName filename : Path) (src : string)
| TWriteFile (tmpName filename : Path) (src : string)
| TRename (tmpName filename : Path)
| TUnlink (tmpName : Path).

Record World := {
  fs : Fs.FS;
  console : list (list LogArg);
  pending : list Task;
  uuid_counter : nat;
  babel_calls : nat;
}.

Record NodeTranspiler := {
  _babelVersion : string;
  _getBabel : unit → Babel;
  _babel : option Babel;
  _cacheDir : option Path;
  _configDigest : option string;
}.

Record State := {
  this : NodeTranspiler;
  world : World;
}.

Definition set_fs (f : Fs.FS) (w : World) : World :=
  {| fs := f; console := console w; pending := pending w;
     uuid_counter := uuid_counter w; babel_calls := babel_calls w |}.

Definition console_error (args : list LogArg) (w : World) : World :=
  {| fs := fs w; console := (console w ++ [args])%list; pending := pending w;
     uuid_counter := uuid_counter w; babel_calls := babel_calls w |}.

Definition schedule (t : Task) (w : World) : World :=
  {| fs := fs w; console := console w; pending := (pending w ++ [t])%list;
     uuid_counter := uuid_counter w; babel_calls := babel_calls w |}.

Definition set_pending (q : list Task) (w : World) : World :=
  {| fs := fs w; console := console w; pending := q;
     uuid_counter := uuid_counter w; babel_calls := babel_calls w |}.

Definition next_uuid `{Runtime} (w : World) : string * World :=
  (uuid_v4 (uuid_counter w),
   {| fs := fs w; console := console w; pending := pending w;
      uuid_counter := S (uuid_counter w); babel_calls := babel_calls w |}).

Definition count_babel_call (w : World) : World :=
  {| fs := fs w; console := console w; pending := pending w;
     uuid_counter := uuid_counter w; babel_calls := S (babel_calls w) |}.

(** *** Computations that read and write the state and may throw *)

Definition M (A : Type) : Type := State → Result A * State.

Definition ret {A} (a : A) : M A := λ st, (Ok a, st).
Definition throw {A} (e : Error) : M A := λ st, (Throw e, st).
Definition bind {A B} (m : M A) (k : A → M B) : M B :=
  λ st, match m st with
        | (Ok a, st') => k a st'
        | (Throw e, st') => (Throw e, st')
        end.
Definition try_catch {A} (m : M A) (handler : Error → M A) : M A :=
  λ st, match m st with
        | (Ok a, st') => (Ok a, st')
        | (Throw e, st') => handler e st'
        end.

Notation "'let!' x ':=' m 'in' k" := (bind m (λ x, k))
  (at level 10, x name, m at level 100, k at level 200).
Notation "m ';;;' k" := (bind m (λ _, k))
  (at level 100, k at level 200, right associativity).

Definition get_this : M NodeTranspiler := λ st, (Ok (this st), st).
Definition put_this (t : NodeTranspiler) : M unit :=
  λ st, (Ok tt, {| this := t; world := world st |}).
Definition get_world : M World := λ st, (Ok (world st), st).
Definition modify_world (f : World → World) : M unit :=
  λ st, (Ok tt, {| this := this st; world := f (world st) |}).
Definition lift {A} (r : Result A) : M A := λ st, (r, st).

Definition readFileSync (p : Path) : M string :=
  let! w := get_world in lift (Fs.readFileSync (fs w) p).
Definition existsSync (p : Path) : M bool :=
  let! w := get_world in ret (Fs.existsSync (fs w) p).

Section NodeTranspiler.
Context `{Runtime}.

Definition BABEL_OPTIONS : Options := {|
  breakConfig := true;
  blacklist := ["es3.memberExpressionLiterals"; "es6.forOf"; "useStrict"];
  optional := ["asyncToGenerator"];
  stage := 1;
  plugins := [require_resolve "./remove-use-babel-tr";
              require_resolve "./inline-imports-tr"];
|}.

(** [new NodeTranspiler(babelVersion, getBabel)]; an absent argument is
    [None]. *)
Definition new_NodeTranspiler (babelVersion : option string)
    (getBabel : option (unit → Babel)) : Result NodeTranspiler :=
  let fresh v g :=
    {| _babelVersion := v; _getBabel := g; _babel := None;
       _cacheDir := None; _configDigest := None |} in
  match babelVersion with
  | Some v =>
      if Js.truthy v then
        match getBabel with
        | Some g => Ok (fresh v g)
        | None => Throw AssertionError
        end
      else Ok (fresh babel_core_version (λ _, babel_core))
  | None => Ok (fresh babel_core_version (λ _, babel_core))
  end.

(** The files whose bytes version the transform:
    [[__filename].concat(BABEL_OPTIONS.plugins).filter(Boolean)].  Every
    entry is a resolved file name, hence truthy, and [filter(Boolean)]
    keeps them all. *)
Definition digest_files : list Path :=
  (module_filename :: plugins BABEL_OPTIONS)%list.

(** The [forEach] over the digest files: each file's bytes, then NUL. *)
Fixpoint hash_files (files : list Path) (hash : Hash.t) : M Hash.t :=
  match files with
  | [] => ret hash
  | pluginFile :: rest =>
      let! data := readFileSync pluginFile in
      hash_files rest (Hash.update (Hash.update hash data) Js.NUL)
  end.

Definition set_configDigest (d : string) : M unit :=
  let! t := get_this in
  put_this {| _babelVersion := _babelVersion t; _getBabel := _getBabel t;
              _babel := _babel t; _cacheDir := _cacheDir t;
              _configDigest := Some d |}.

Definition set_cacheDir (d : Path) : M unit :=
  let! t := get_this in
  put_this {| _babelVersion := _babelVersion t; _getBabel := _getBabel t;
              _babel := _babel t; _cacheDir := Some d;
              _configDigest := _configDigest t |}.

Definition set_babel (b : Babel) : M unit :=
  let! t := get_this in
  put_this {| _babelVersion := _babelVersion t; _getBabel := _getBabel t;
              _babel := Some b; _cacheDir := _cacheDir t;
              _configDigest := _configDigest t |}.

(** The stored digest, when [!this._configDigest] is false: the field
    holds a string and the string is not empty. *)
Definition memo_digest (t : NodeTranspiler) : option string :=
  match _configDigest t with
  | Some d => if Js.truthy d then Some d else None
  | None => None
  end.

(** [if (!this._configDigest) { ... } return this._configDigest]: the
    block computes and stores the digest, which is then the one
    returned. *)
Definition getConfigDigest : M string :=
  let! t := get_this in
  match memo_digest t with
  | Some d => ret d
  | None =>
      let hash :=
        Hash.update (Hash.update (Hash.update (Hash.update (Hash.update
          Hash.createHash "babel-core") Js.NUL) (_babelVersion t)) Js.NUL)
          (JSON_stringify BABEL_OPTIONS) in
      let! hash := hash_files digest_files hash in
      let d := Hash.digest_hex hash in
      set_configDigest d;;;
      ret d
  end.

(** [Buffer.isBuffer(src) ? src.toString() : src] is [src] itself here.
    The count of engine invocations is kept for the statements below. *)
Definition transform (src filename : string) : M string :=
  let! t := get_this in
  (match _babel t with
   | Some _ => ret tt
   | None => set_babel (_getBabel t tt)
   end);;;
  try_catch
    (let! t := get_this in
     match _babel t with
     | Some babel =>
         let input := src in
         modify_world count_babel_call;;;
         lift (babel input BABEL_OPTIONS)
     | None => throw AssertionError
     end)
    (λ err,
       modify_world (console_error
         [LStr ("Error transpiling " ++ Js.dquote ++ filename ++ Js.dquote)]);;;
       throw err).

Definition _getCacheFilename (src : string) : M Path :=
  let fileDigest := Hash.digest_hex (Hash.update Hash.createHash src) in
  let! t := get_this in
  let! cacheDir :=
    match _cacheDir t with
    | Some d => ret d
    | None =>
        let! digest := getConfigDigest in
        let d := path_join (path_join os_tmpdir "nuclide-node-transpiler") digest in
        set_cacheDir d;;;
        ret d
    end in
  let cacheFilename := path_join cacheDir (fileDigest ++ ".js") in
  ret cacheFilename.

Definition cacheWriteAsync (filename : Path) (src : string) (w : World) : World :=
  let basedir := path_dirname filename in
  let (uuid, w) := next_uuid w in
  let tmpName := path_join basedir ("." ++ uuid) in
  schedule (TMkdirp basedir tmpName filename src) w.

Definition transformWithCache (src filename : string) : M string :=
  let! cacheFilename := _getCacheFilename src in
  let! found := existsSync cacheFilename in
  if found then
    readFileSync cacheFilename
  else
    let! output := transform src filename in
    modify_world (cacheWriteAsync cacheFilename output);;;
    ret output.

(** *** The event loop

    One turn completes the oldest pending operation and runs its
    callback. *)

Definition cache_log (e : Error) : list LogArg :=
  [LStr "nuclide-node-transpiler:"; LErr e].

Definition run_task (t : Task) (w : World) : World :=
  match t with
  | TMkdirp basedir tmpName filename src =>
      match Fs.mkdirp (fs w) basedir with
      | Throw mkdirErr => console_error (cache_log mkdirErr) w
      | Ok fs' => schedule (TWriteFile tmpName filename src) (set_fs fs' w)
      end
  | TWriteFile tmpName filename src =>
      match Fs.writeFile (fs w) tmpName src with
      | Throw writeError => console_error (cache_log writeError) w
      | Ok fs' => schedule (TRename tmpName filename) (set_fs fs' w)
      end
  | TRename tmpName filename =>
      match Fs.rename (fs w) tmpName filename with
      | Throw renameErr =>
          schedule (TUnlink tmpName) (console_error (cache_log renameErr) w)
      | Ok fs' => set_fs fs' w
      end
  | TUnlink tmpName =>
      match Fs.unlink (fs w) tmpName with
      | Throw _ => w
      | Ok fs' => set_fs fs' w
      end
  end.

Definition tick (w : World) : World :=
  match pending w with
  | [] => w
  | t :: q => run_task t (set_pending q w)
  end.

(** The number of turns an operation and its successors can take. *)
Definition task_weight (t : Task) : nat :=
  match t with
  | TMkdirp _ _ _ _ => 4
  | TWriteFile _ _ _ => 3
  | TRename _ _ => 2
  | TUnlink _ => 1
  end.

Definition queue_weight (q : list Task) : nat :=
  fold_right (λ t n, task_weight t + n) 0 q.

(** Runs the event loop until nothing is pending. *)
Definition run_event_loop (w : World) : World :=
  Nat.iter (queue_weight (pending w)) tick w.

Definition settle (st : State) : State :=
  {| this := this st; world := run_event_loop (world st) |}.

End NodeTranspiler.

(** ** Derived notions used in the statements *)

(** The bytes fed to the hash of [getConfigDigest], as a function of the
    version, the serialised options and the contents of the digest
    files. *)
Fixpoint frame_files (contents : list string) : string :=
  match contents with
  | [] => ""
  | c :: rest => c ++ Js.NUL ++ frame_files rest
  end.

Definition digest_stream (version json : string) (contents : list string) : string :=
  "babel-core" ++ Js.NUL ++ version ++ Js.NUL ++ json ++ frame_files contents.

(** Reads the files in order and stops at the first failure. *)
Fixpoint read_all (f : Fs.FS) (files : list Path) : Result (list string) :=
  match files with
  | [] => Ok []
  | p :: rest =>
      match Fs.readFileSync f p with
      | Throw e => Throw e
      | Ok c =>
          match read_all f rest with
          | Throw e => Throw e
          | Ok cs => Ok (c :: cs)
          end
      end
  end.

Fixpoint nul_free (s : string) : bool :=
  match s with
  | EmptyString => true
  | String c s' => negb (Ascii.eqb c "000") && nul_free s'
  end.

(** The engine a transpiler object uses: the acquired one, or the one
    [_getBabel] hands out on first use. *)
Definition engine_of (t : NodeTranspiler) : Babel :=
  match _babel t with
  | Some babel => babel
  | None => _getBabel t tt
  end.

Definition memoised (d : string) (t : NodeTranspiler) : NodeTranspiler :=
  {| _babelVersion := _babelVersion t; _getBabel := _getBabel t;
     _babel := _babel t; _cacheDir := _cacheDir t; _configDigest := Some d |}.

Definition with_world (st : State) (w : World) : State :=
  {| this := this st; world := w |}.

(** The effect of one complete write-back on the file system and the
    console, when nothing else touches the directory meanwhile. *)
Definition writeback (basedir tmpName filename : Path) (src : string)
    (w : World) : World :=
  match Fs.mkdirp (fs w) basedir with
  | Throw e => console_error (cache_log e) w
  | Ok fs1 =>
      match Fs.writeFile fs1 tmpName src with
      | Throw e => console_error (cache_log e) (set_fs fs1 w)
      | Ok fs2 =>
          match Fs.rename fs2 tmpName filename with
          | Ok fs3 => set_fs fs3 w
          | Throw e =>
              let w' := console_error (cache_log e) (set_fs fs2 w) in
              match Fs.unlink fs2 tmpName with
              | Throw _ => w'
              | Ok fs3 => set_fs fs3 w'
              end
          end
      end
  end.

(** The cache directory rejects every creation: it cannot be made, or it
    is there and no file can be written into it. *)
Definition cache_dir_unwritable (f : Fs.FS) (basedir : Path) : Prop :=
  (∃ e, Fs.mkdirp f basedir = Throw e)
  ∨ (Fs.mkdirp f basedir = Ok f
     ∧ ∀ name data, ∃ e, Fs.writeFile f (path_join basedir name) data = Throw e).

(** ** A small concrete host, for examples *)

Module Toy.

Definition hex_digit (v : N) : ascii :=
  match String.get (N.to_nat (v mod 16)) "0123456789abcdef" with
  | Some c => c
  | None => "0"%char
  end.

Fixpoint hex_digits (n : nat) (v : N) : string :=
  match n with
  | 0 => ""
  | S n' => String (hex_digit v) (hex_digits n' (v / 16))
  end.

Fixpoint hex_digits_length (n : nat) (v : N) :
    String.length (hex_digits n v) = n :=
  match n with
  | 0 => eq_refl
  | S n' => f_equal S (hex_digits_length n' (v / 16))
  end.

Fixpoint mix (acc : N) (s : string) : N :=
  match s with
  | EmptyString => acc
  | String c s' => mix ((acc * 257 + N_of_ascii c + 1) mod 2 ^ 160)%N s'
  end.

(** A stand-in for SHA-1 with the same output format. *)
Definition sha1 (data : string) : string := hex_digits 40 (mix 7 data).

Definition uuid (n : nat) : string := "uuid-" ++ hex_digits 8 (N.of_nat n).

(** A stand-in for babel: it rejects one malformed input and prefixes
    everything else. *)
Definition babel : Babel :=
  λ input _,
    if String.eqb input "'use babel'; )"
    then Throw (EngineError "unknown: Unexpected token (1:13)")
    else Ok ("'use strict'; " ++ input).

#[global] Instance runtime : Runtime := {|
  sha1_hex := sha1;
  sha1_hex_length := λ data, hex_digits_length 40 (mix 7 data);
  uuid_v4 := uuid;
  os_tmpdir := ["tmp"];
  module_filename := ["app"; "lib"; "NodeTranspiler.js"];
  require_resolve := λ name,
    ["app"; "lib"; String.substring 2 (String.length name - 2) name ++ ".js"];
  JSON_stringify := λ o, "{stage:1}";
  babel_core_version := "5.8.38";
  babel_core := babel;
|}.

Definition lib_files (a b c : string) : Fs.FS :=
  <[ ["app"; "lib"; "NodeTranspiler.js"] := Fs.File a true ]>
  (<[ ["app"; "lib"; "remove-use-babel-tr.js"] := Fs.File b true ]>
  (<[ ["app"; "lib"; "inline-imports-tr.js"] := Fs.File c true ]>
  (<[ ["app"; "lib"] := Fs.Dir true ]>
  (<[ ["app"] := Fs.Dir true ]>
  (<[ ["tmp"] := Fs.Dir true ]>
  (<[ [] := Fs.Dir true ]> ∅)))))).

Definition disk : Fs.FS := lib_files "driver" "plugin one" "plugin two".

Definition boot (f : Fs.FS) : State :=
  {| this := {| _babelVersion := "5.8.38"; _getBabel := λ _, babel;
                _babel := None; _cacheDir := None; _configDigest := None |};
     world := {| fs := f; console := []; pending := [];
                 uuid_counter := 0; babel_calls := 0 |} |}.

Definition good_src : string := "'use babel'; foo()".
Definition bad_src : string := "'use babel'; )".

(** The cache file of [good_src] on [disk]. *)
Definition good_cache_file : Path :=
  match fst (_getCacheFilename good_src (boot disk)) with
  | Ok p => p
  | Throw _ => []
  end.

End Toy.

(** ** Fingerprint inputs *)

(** What the digest is computed from: the version, the serialised options
    and the contents of the digest files, in order. *)
Record DigestInput := {
  di_version : string;
  di_options : string;
  di_contents : list string;
}.

Definition stream_of (i : DigestInput) : string :=
  digest_stream (di_version i) (di_options i) (di_contents i).

(** A change of one field alone, or a change of the file contents among
    contents that hold no NUL byte. *)
Inductive changed : DigestInput → DigestInput → Prop :=
| changed_version v v' j cs :
    v ≠ v' →
    changed {| di_version := v; di_options := j; di_contents := cs |}
            {| di_version := v'; di_options := j; di_contents := cs |}
| changed_options v j j' cs :
    j ≠ j' →
    changed {| di_version := v; di_options := j; di_contents := cs |}
            {| di_version := v; di_options := j'; di_contents := cs |}
| changed_file v j pre c c' post :
    c ≠ c' →
    changed {| di_version := v; di_options := j; di_contents := (pre ++ c :: post)%list |}
            {| di_version := v; di_options := j; di_contents := (pre ++ c' :: post)%list |}
| changed_files v j cs cs' :
    forallb nul_free cs = true → forallb nul_free cs' = true → cs ≠ cs' →
    changed {| di_version := v; di_options := j; di_contents := cs |}
            {| di_version := v; di_options := j; di_contents := cs' |}.

Definition input_of `{Runtime} (st : State) (cs : list string) : DigestInput :=
  {| di_version := _babelVersion (this st);
     di_options := JSON_stringify BABEL_OPTIONS;
     di_contents := cs |}.

Module ToyDisks.
Import Toy.
Definition disk_ab_c : Fs.FS := lib_files "ab" "c" "x".
Definition disk_a_bc : Fs.FS := lib_files "a" "bc" "x".
(** Two installations whose plugin files are line comments, one of them
    with a NUL byte inside the comment. *)
Definition disk_nul_1 : Fs.FS :=
  lib_files "driver" ("//a" ++ Js.NUL ++ "//b") "//c".
Definition disk_nul_2 : Fs.FS :=
  lib_files "driver" "//a" ("//b" ++ Js.NUL ++ "//c").
(** The driver's own source cannot be read. *)
Definition disk_locked : Fs.FS :=
  <[ ["app"; "lib"; "NodeTranspiler.js"] := Fs.File "driver" false ]> disk.
(** The same library files, with some unrelated file besides. *)
Definition disk_other : Fs.FS := <[ ["tmp"; "notes.txt"] := Fs.File "n" true ]> disk.
End ToyDisks.

(** ** Object states and step outcomes named in the statements *)

(** The transpiler object once the engine has been acquired. *)
Definition acquired (t : NodeTranspiler) : NodeTranspiler :=
  match _babel t with
  | Some _ => t
  | None =>
      {| _babelVersion := _babelVersion t; _getBabel := _getBabel t;
         _babel := Some (_getBabel t tt); _cacheDir := _cacheDir t;
         _configDigest := _configDigest t |}
  end.

Definition with_cacheDir (d : Path) (t : NodeTranspiler) : NodeTranspiler :=
  {| _babelVersion := _babelVersion t; _getBabel := _getBabel t;
     _babel := _babel t; _cacheDir := Some d;
     _configDigest := _configDigest t |}.

Definition cache_dir_of `{Runtime} (digest : string) : Path :=
  path_join (path_join os_tmpdir "nuclide-node-transpiler") digest.

Definition transpile_log (filename : string) : list LogArg :=
  [LStr ("Error transpiling " ++ Js.dquote ++ filename ++ Js.dquote)].

Definition failure {A} (r : Result A) : option Error :=
  match r with
  | Ok _ => None
  | Throw e => Some e
  end.

(** The error, if any, of the file-system operation a task performs. *)
Definition task_failure (t : Task) (w : World) : option Error :=
  match t with
  | TMkdirp basedir _ _ _ => failure (Fs.mkdirp (fs w) basedir)
  | TWriteFile tmpName _ src => failure (Fs.writeFile (fs w) tmpName src)
  | TRename tmpName filename => failure (Fs.rename (fs w) tmpName filename)
  | TUnlink tmpName => failure (Fs.unlink (fs w) tmpName)
  end.

(** What can happen to the process between two calls: the event loop
    takes a turn, or another process changes the files. *)
Inductive step `{Runtime} : World → World → Prop :=
| step_tick w : pending w ≠ [] → step w (tick w)
| step_environment w f : step w (set_fs f w).

Module Scenarios.
Import Toy.

Definition bad_cache_file : Path :=
  match fst (_getCacheFilename bad_src (boot disk)) with
  | Ok p => p
  | Throw _ => []
  end.

Definition good_out : string := "'use strict'; 'use babel'; foo()".

(** The namespace directory exists and holds an entry for [good_src]
    that the process may not read. *)
Definition with_locked_entry (f : Fs.FS) (p : Path) : Fs.FS :=
  match Fs.mkdirp f (path_dirname p) with
  | Ok f' => <[ p := Fs.File "stale" false ]> f'
  | Throw _ => f
  end.

Definition disk_cache_locked : Fs.FS := with_locked_entry disk good_cache_file.

(** The cache root exists and is closed to the process. *)
Definition disk_cache_sealed : Fs.FS :=
  <[ ["tmp"; "nuclide-node-transpiler"] := Fs.Dir false ]> disk.

(** A write-back of [good_out] after its first two turns: the directory
    is made and the temporary file is written. *)
Definition world_written : World :=
  tick (tick (cacheWriteAsync good_cache_file good_out (world (boot disk)))).

Definition tmp_file : Path :=
  path_join (path_dirname good_cache_file) ("." ++ uuid 0).

(** Another process (a cleaner of the temporary directory) removes the
    temporary file before the rename. *)
Definition world_swept : World :=
  set_fs (delete tmp_file (fs world_written)) world_written.

End Scenarios.


(** ** The file tree: which rows to render

    [FileTreeNode] comes from another module; only the fields this
    component reads are kept, and the values of the [OrderedMap] of
    children in their order.  [findNext], a method of the node, is left
    to the caller. *)

Module FileTree.
Local Open Scope Z_scope.

#[warnings="-register-all"]
Inductive FileTreeNode := mkNode {
  isRoot : bool;
  isTracked : bool;
  containsTrackedNode : bool;
  shownChildrenBelow : Z;
  children : list FileTreeNode;
}.

Definition BUFFER_ELEMENTS : Z := 15.

(** [roots.find(r => ...)] with the [skipped] it accumulates, followed by
    what [findFirstNodeToRender] does with the root it found; [under]
    stands for the recursive call on the children of that root. *)
Definition find_first (under : FileTreeNode → Z → option FileTreeNode)
    (firstToRender : Z) : list FileTreeNode → Z → option FileTreeNode :=
  fix find (l : list FileTreeNode) (skipped : Z) {struct l} :=
    match l with
    | [] => None
    | r :: l' =>
        if skipped + shownChildrenBelow r >? firstToRender then
          if skipped =? firstToRender then Some r
          else under r (firstToRender - skipped - 1)
        else find l' (skipped + shownChildrenBelow r)
    end.

(** [findFirstNodeToRender(node.children, firstToRender)], by recursion on
    [node]. *)
Fixpoint findFirstNodeToRender_under (node : FileTreeNode) (firstToRender : Z)
    {struct node} : option FileTreeNode :=
  match node with
  | mkNode _ _ _ _ cs =>
      (fix find (l : list FileTreeNode) (skipped : Z) {struct l} :=
         match l with
         | [] => None
         | r :: l' =>
             if skipped + shownChildrenBelow r >? firstToRender then
               if skipped =? firstToRender then Some r
               else findFirstNodeToRender_under r (firstToRender - skipped - 1)
             else find l' (skipped + shownChildrenBelow r)
         end) cs 0
  end.

Definition findFirstNodeToRender (roots : list FileTreeNode) (firstToRender : Z)
    : option FileTreeNode :=
  find_first findFirstNodeToRender_under firstToRender roots 0.

(** [nodes.find(node => ...)] of [findIndexOfTheTrackedNode] with its
    [skipped], followed by the three returns. *)
Definition find_tracked (under : FileTreeNode → Z)
    : list FileTreeNode → Z → Z :=
  fix find (l : list FileTreeNode) (skipped : Z) {struct l} :=
    match l with
    | [] => -1
    | node :: l' =>
        if containsTrackedNode node then
          if isTracked node then skipped
          else skipped + 1 + under node
        else find l' (skipped + shownChildrenBelow node)
    end.

Fixpoint findIndexOfTheTrackedNode_under (node : FileTreeNode) {struct node} : Z :=
  match node with
  | mkNode _ _ _ _ cs =>
      (fix find (l : list FileTreeNode) (skipped : Z) {struct l} :=
         match l with
         | [] => -1
         | n :: l' =>
             if containsTrackedNode n then
               if isTracked n then skipped
               else skipped + 1 + findIndexOfTheTrackedNode_under n
             else find l' (skipped + shownChildrenBelow n)
         end) cs 0
  end.

Definition findIndexOfTheTrackedNode (nodes : list FileTreeNode) : Z :=
  find_tracked findIndexOfTheTrackedNode_under nodes 0.

Definition countShownNodes (roots : list FileTreeNode) : Z :=
  fold_left (λ sum root, sum + shownChildrenBelow root) roots 0.

(** [_scrollToTrackedNodeIfNeeded]: the arguments of the call of
    [props.scrollToPosition], when it is made. *)
Definition _scrollToTrackedNodeIfNeeded (roots : list FileTreeNode)
    (elementHeight : Z) : option (Z * Z) :=
  let trackedIndex := findIndexOfTheTrackedNode roots in
  if trackedIndex <? 0 then None
  else Some (trackedIndex * elementHeight, elementHeight).

(** One [FileTreeEntryComponent] of the rendered list. *)
Record Entry := {
  entry_key : Z;
  entry_node : FileTreeNode;
  entry_measured : bool;
}.

Inductive Rendered :=
| EmptyComponent
| Rows (topPlaceholderSize : Z) (visibleChildren : list Entry)
       (bottomPlaceholderSize : Z).

(** The first row to render, from the number of shown rows, the number
    of rows that fit the container ([Math.ceil(containerHeight /
    elementHeight)]) and the number of rows scrolled past
    ([Math.floor(scrollTop / elementHeight)]). *)
Definition firstToRender (childrenCount elementsInView scrolledRows : Z) : Z :=
  let firstToRender := scrolledRows - BUFFER_ELEMENTS in
  let firstToRender :=
    if firstToRender >? childrenCount - elementsInView
    then childrenCount - elementsInView else firstToRender in
  Z.max firstToRender 0.

Section Render.
Variable findNext : FileTreeNode → option FileTreeNode.

(** The [while] loop of [_renderChildren]; it ends when the chain of
    nodes ends or [amountToRender] entries are there, so that
    [amountToRender] turns are enough. *)
Fixpoint render_loop (turns : nat) (amountToRender : Z)
    (node : option FileTreeNode) (key : Z) (chosenMeasured : bool)
    (visibleChildren : list Entry) : list Entry :=
  match turns with
  | O => visibleChildren
  | S turns' =>
      match node with
      | Some n =>
          if Z.of_nat (length visibleChildren) <? amountToRender then
            let measured := negb (isRoot n) && negb chosenMeasured in
            render_loop turns' amountToRender (findNext n)
              (Z.rem (key + 1) amountToRender)
              (chosenMeasured || measured)
              (visibleChildren ++
                 [{| entry_key := key; entry_node := n;
                     entry_measured := measured |}])
          else visibleChildren
      | None => visibleChildren
      end
  end.

(** [_renderChildren], given the two quotients named above. *)
Definition _renderChildren (roots : list FileTreeNode)
    (elementHeight elementsInView scrolledRows : Z) : Rendered :=
  let childrenCount := countShownNodes roots in
  if childrenCount =? 0 then EmptyComponent
  else
    let firstToRender := firstToRender childrenCount elementsInView scrolledRows in
    let amountToRender := elementsInView + 2 * BUFFER_ELEMENTS in
    let node := findFirstNodeToRender roots firstToRender in
    let key := Z.rem firstToRender amountToRender in
    let visibleChildren :=
      render_loop (Z.to_nat amountToRender) amountToRender node key false [] in
    let topPlaceholderSize := firstToRender * elementHeight in
    let bottomPlaceholderCount :=
      childrenCount - (firstToRender + Z.of_nat (length visibleChildren)) in
    let bottomPlaceholderSize := bottomPlaceholderCount * elementHeight in
    Rows topPlaceholderSize visibleChildren bottomPlaceholderSize.

End Render.

(** *** What the counts mean *)

(** Every count is that of the node itself, if it is shown, plus those
    of its children, if it is open. *)
Fixpoint well_counted (n : FileTreeNode) : bool :=
  match n with
  | mkNode _ _ _ s cs =>
      (0 <=? s)
      && ((s <=? 1)
          || (s =? 1 + fold_left (λ sum c, sum + shownChildrenBelow c) cs 0))
      && forallb well_counted cs
  end.

(** The rows on screen, top to bottom. *)
Fixpoint shown_rows (n : FileTreeNode) : list FileTreeNode :=
  match n with
  | mkNode _ _ _ s cs =>
      if s <=? 0 then []
      else n :: (if s =? 1 then [] else concat (map shown_rows cs))
  end.

Definition rows (roots : list FileTreeNode) : list FileTreeNode :=
  concat (map shown_rows roots).

(** The tracked node is on screen: it is shown, and so is every node
    above it, open. *)
Inductive tracked_shown : list FileTreeNode → Prop :=
| tracked_here pre n post :
    Forall (λ m, containsTrackedNode m = false) pre →
    containsTrackedNode n = true → isTracked n = true →
    1 ≤ shownChildrenBelow n →
    tracked_shown (pre ++ n :: post)
| tracked_below pre n post :
    Forall (λ m, containsTrackedNode m = false) pre →
    containsTrackedNode n = true → isTracked n = false →
    shownChildrenBelow n = 1 + countShownNodes (children n) →
    tracked_shown (children n) →
    tracked_shown (pre ++ n :: post).

(** The nodes [findNext] reaches from a node, the node included, at most
    [count] of them. *)
Fixpoint next_nodes (findNext : FileTreeNode → option FileTreeNode)
    (count : nat) (node : option FileTreeNode) : list FileTreeNode :=
  match count, node with
  | S count', Some n => n :: next_nodes findNext count' (findNext n)
  | _, _ => []
  end.

(** The entries the loop makes of a list of nodes. *)
Fixpoint entries (amountToRender : Z) (nodes : list FileTreeNode) (key : Z)
    (chosenMeasured : bool) : list Entry :=
  match nodes with
  | [] => []
  | n :: nodes' =>
      let measured := negb (isRoot n) && negb chosenMeasured in
      {| entry_key := key; entry_node := n; entry_measured := measured |}
      :: entries amountToRender nodes' (Z.rem (key + 1) amountToRender)
           (chosenMeasured || measured)
  end.

(** [findNext] leads from each row on screen to the row below it. *)
Definition follows_rows (findNext : FileTreeNode → option FileTreeNode)
    (roots : list FileTreeNode) : Prop :=
  ∀ i n, rows roots !! i = Some n → findNext n = rows roots !! S i.

End FileTree.

(** A small tree: a root with an open folder holding the tracked file,
    and a second file. *)
Module SampleTree.
Import FileTree.

Definition tracked_file : FileTreeNode :=
  {| isRoot := false; isTracked := true; containsTrackedNode := true;
     shownChildrenBelow := 1; children := [] |}.

Definition other_file : FileTreeNode :=
  {| isRoot := false; isTracked := false; containsTrackedNode := false;
     shownChildrenBelow := 1; children := [] |}.

Definition folder : FileTreeNode :=
  {| isRoot := false; isTracked := false; containsTrackedNode := true;
     shownChildrenBelow := 2; children := [tracked_file] |}.

Definition root : FileTreeNode :=
  {| isRoot := true; isTracked := false; containsTrackedNode := true;
     shownChildrenBelow := 4; children := [folder; other_file] |}.

Definition roots : list FileTreeNode := [root].

Definition findNext (n : FileTreeNode) : option FileTreeNode :=
  if isRoot n then Some folder
  else if (shownChildrenBelow n =? 2)%Z then Some tracked_file
  else if isTracked n then Some other_file
  else None.

End SampleTree.

(** ** The stages of a write-back *)

(** What the process may hold in its queue while one write-back of [src]
    to [filename] through [tmpName] is under way, with what is then known
    of the files. *)
Definition writeback_stage (basedir tmpName filename : Path) (src : string)
    (w : World) : Prop :=
  pending w = [TMkdirp basedir tmpName filename src]
  ∨ pending w = [TWriteFile tmpName filename src]
  ∨ (pending w = [TRename tmpName filename]
     ∧ ∀ syscall, Fs.stat (fs w) syscall tmpName = Ok (Fs.File src true))
  ∨ (pending w = [TUnlink tmpName] ∧ tmpName ≠ filename)
  ∨ pending w = [].

(** What a write-back leaves alone: directories, every entry other than
    the final path and the temporary file, and the final path itself
    until it holds the whole output. *)
Definition writeback_frame (tmpName filename : Path) (src : string)
    (f f' : Fs.FS) : Prop :=
  (∀ q a, f !! q = Some (Fs.Dir a) → f' !! q = Some (Fs.Dir a))
  ∧ (∀ q n, q ≠ tmpName → q ≠ filename → f !! q = Some n → f' !! q = Some n)
  ∧ (f' !! filename = f !! filename
     ∨ f' !! filename = Some (Fs.File src true)).

Module Fixtures.
Import Toy.

(** The namespace directory exists and holds a readable entry. *)
Definition with_entry (f : Fs.FS) (p : Path) (data : string) : Fs.FS :=
  match Fs.mkdirp f (path_dirname p) with
  | Ok f' => <[ p := Fs.File data true ]> f'
  | Throw _ => f
  end.

(** The file system once the namespace directory of [p] is made. *)
Definition namespace_made (f : Fs.FS) (p : Path) : Fs.FS :=
  match Fs.mkdirp f (path_dirname p) with
  | Ok f' => f'
  | Throw _ => f
  end.

(** And once [data] is written to the file [p]. *)
Definition file_written (f : Fs.FS) (p : Path) (data : string) : Fs.FS :=
  match Fs.writeFile f p data with
  | Ok f' => f'
  | Throw _ => f
  end.

Definition disk_stale : Fs.FS :=
  with_entry disk Scenarios.bad_cache_file "stale".

End Fixtures.
(** * Properties *)

(** Closed facts about the example host are settled by evaluation. *)
Ltac by_evaluation := vm_compute; reflexivity.

(** ** The prefilter *)

Lemma prefix_iff_app (p s : string) :
  String.prefix p s = true ↔ ∃ rest, s = p ++ rest.
Proof.
  revert s. induction p as [|a p IH]; intros s.
  - split; [intros _; by exists s | by destruct s].
  - destruct s as [|b s]; simpl.
    + split; [done | intros [rest Hr]; discriminate Hr].
    + destruct (ascii_dec a b) as [->|Hne].
      * rewrite IH. split; intros [rest Hr]; exists rest.
        -- by rewrite Hr.
        -- by injection Hr.
      * split; [done | intros [rest Hr]; injection Hr; congruence].
Qed.

Lemma prefix_slice0 (p : string) (n : nat) (s : string) :
  (String.length p ≤ n)%nat →
  String.prefix p (Js.slice0 n s) = String.prefix p s.
Proof.
  unfold Js.slice0. revert n s. induction p as [|a p IH]; intros n s Hn.
  - by destruct n, s.
  - simpl in Hn. destruct n as [|n]; [lia|].
    destruct s as [|b s]; simpl; [done|].
    destruct (ascii_dec a b); [apply IH; lia | done].
Qed.

Lemma PREFIX_LENGTH_eq : PREFIX_LENGTH = 13.
Proof. reflexivity. Qed.

Lemma shouldCompile_unfold (s : string) :
  shouldCompile s = existsb (λ p, String.prefix p s) PREFIXES.
Proof.
  unfold shouldCompile, Js.startsWith. rewrite PREFIX_LENGTH_eq.
  unfold PREFIXES. simpl existsb.
  rewrite !prefix_slice0 by (simpl; lia). done.
Qed.

Lemma slice0_idem (n : nat) (s : string) :
  Js.slice0 n (Js.slice0 n s) = Js.slice0 n s.
Proof.
  unfold Js.slice0. revert s. induction n as [|n IH]; intros s.
  - by destruct s.
  - destruct s as [|c s]; simpl; [done|]. by rewrite IH.
Qed.

(** C7. [shouldCompile] answers true exactly when one of the four
    directives is a prefix of the input at offset 0; it only looks at the
    first [PREFIX_LENGTH] = 13 characters; and a directive that only
    occurs after a leading space is not recognised. *)
Theorem shouldCompile_exact (s : string) :
  (shouldCompile s = true ↔ ∃ p rest, In p PREFIXES ∧ s = p ++ rest)
  ∧ shouldCompile s = shouldCompile (Js.slice0 PREFIX_LENGTH s)
  ∧ PREFIX_LENGTH = 13
  ∧ ∀ rest, existsb (λ p, shouldCompile (" " ++ p ++ rest)) PREFIXES = false.
Proof.
  split; [split|split; [|split]].
  - rewrite shouldCompile_unfold, existsb_exists.
    intros (p & Hin & Hp). apply prefix_iff_app in Hp as [rest ->]. eauto.
  - intros (p & rest & Hin & ->).
    rewrite shouldCompile_unfold, existsb_exists.
    exists p. split; [done|]. apply prefix_iff_app. eauto.
  - unfold shouldCompile. by rewrite slice0_idem.
  - reflexivity.
  - intros rest. unfold PREFIXES at 1. cbn [existsb].
    rewrite !shouldCompile_unfold. reflexivity.
Qed.

Example shouldCompile_use_babel :
  shouldCompile "'use babel';
foo()" = true.
Proof. reflexivity. Qed.

Example shouldCompile_flow_second_line :
  shouldCompile "// @noflow /* @flow */" = false.
Proof. reflexivity. Qed.

Example shouldCompile_case_sensitive : shouldCompile "'Use Babel'" = false.
Proof. reflexivity. Qed.

(** ** Strings *)

Lemma append_assoc (a b c : string) : (a ++ b) ++ c = a ++ (b ++ c).
Proof. induction a as [|x a IH]; simpl; [done | by rewrite IH]. Qed.

Lemma append_nil_r (a : string) : a ++ "" = a.
Proof. induction a as [|x a IH]; simpl; [done | by rewrite IH]. Qed.

Lemma length_append (a b : string) :
  String.length (a ++ b) = String.length a + String.length b.
Proof. induction a as [|x a IH]; simpl; [done | by rewrite IH]. Qed.

Lemma append_inv_head (a b c : string) : a ++ b = a ++ c → b = c.
Proof. induction a as [|x a IH]; simpl; [done | intros [= E]; auto]. Qed.

Lemma append_inv_tail (a b c : string) : a ++ c = b ++ c → a = b.
Proof.
  revert b. induction a as [|x a IH]; intros [|y b] E; simpl in E.
  - done.
  - apply (f_equal String.length) in E. simpl in E.
    rewrite length_append in E. lia.
  - apply (f_equal String.length) in E. simpl in E.
    rewrite length_append in E. lia.
  - injection E as -> E. f_equal. by apply IH.
Qed.

Lemma truthy_length (s : string) : 0 < String.length s → Js.truthy s = true.
Proof. destruct s; simpl; [lia | done]. Qed.

(** NUL-terminated framing can be undone when the fields hold no NUL. *)
Lemma frame_head_inj (c c' r r' : string) :
  nul_free c = true → nul_free c' = true →
  c ++ Js.NUL ++ r = c' ++ Js.NUL ++ r' → c = c' ∧ r = r'.
Proof.
  revert c'. induction c as [|x c IH]; intros [|y c'] Hc Hc' E; simpl in *.
  - by injection E.
  - injection E as <- _. by rewrite andb_false_l in Hc'.
  - injection E as -> _. by rewrite andb_false_l in Hc.
  - apply andb_true_iff in Hc as [_ Hc]. apply andb_true_iff in Hc' as [_ Hc'].
    injection E as -> E. destruct (IH c' Hc Hc' E) as [-> ->]. done.
Qed.

Lemma frame_files_inj (cs cs' : list string) :
  forallb nul_free cs = true → forallb nul_free cs' = true →
  frame_files cs = frame_files cs' → cs = cs'.
Proof.
  revert cs'. induction cs as [|c cs IH]; intros [|c' cs'] H1 H2 E; simpl in *.
  - done.
  - destruct c'; discriminate E.
  - destruct c; discriminate E.
  - apply andb_true_iff in H1 as [Hc H1]. apply andb_true_iff in H2 as [Hc' H2].
    destruct (frame_head_inj _ _ _ _ Hc Hc' E) as [-> E']. f_equal. by apply IH.
Qed.

Lemma frame_files_app (pre post : list string) :
  frame_files (pre ++ post) = frame_files pre ++ frame_files post.
Proof.
  induction pre as [|c pre IH]; simpl; [done|].
  by rewrite IH, !append_assoc.
Qed.

Lemma result_pair {A B} (r : A * B) (a : A) : fst r = a → r = (a, snd r).
Proof. destruct r. simpl. by intros ->. Qed.

Section Digest.
Context `{Runtime}.

(** ** The configuration digest *)

Lemma hash_files_eq (files : list Path) (hash : Hash.t) (st : State) :
  hash_files files hash st =
    (match read_all (fs (world st)) files with
     | Ok cs => Ok (hash ++ frame_files cs)
     | Throw e => Throw e
     end, st).
Proof.
  revert hash. induction files as [|p files IH]; intros hash; simpl.
  - unfold ret. by rewrite append_nil_r.
  - unfold readFileSync, bind, get_world, lift. simpl.
    destruct (Fs.readFileSync (fs (world st)) p) as [c|e]; [|done].
    destruct st as [t w]. simpl. rewrite IH. simpl.
    destruct (read_all (fs w) files) as [cs|e]; [|done].
    unfold Hash.update. by rewrite !append_assoc.
Qed.

Lemma getConfigDigest_eq (st : State) :
  getConfigDigest st =
    match memo_digest (this st) with
    | Some d => (Ok d, st)
    | None =>
        match read_all (fs (world st)) digest_files with
        | Ok cs =>
            let d := sha1_hex (digest_stream (_babelVersion (this st))
                                 (JSON_stringify BABEL_OPTIONS) cs) in
            (Ok d, {| this := memoised d (this st); world := world st |})
        | Throw e => (Throw e, st)
        end
    end.
Proof.
  unfold getConfigDigest, bind at 1, get_this.
  destruct (memo_digest (this st)) as [d|]; [done|].
  unfold bind at 1. rewrite hash_files_eq.
  destruct (read_all (fs (world st)) digest_files) as [cs|e]; [|done].
  unfold bind, set_configDigest, bind, get_this, put_this, ret; simpl.
  unfold Hash.digest_hex, Hash.update, Hash.createHash, digest_stream, memoised.
  simpl. by rewrite !append_assoc.
Qed.

Lemma memo_digest_memoised (d : string) (t : NodeTranspiler) :
  0 < String.length d → memo_digest (memoised d t) = Some d.
Proof. intros Hd. unfold memo_digest. simpl. by rewrite truthy_length. Qed.

Lemma getConfigDigest_ok_memo (st st1 : State) (d : string) :
  getConfigDigest st = (Ok d, st1) →
  memo_digest (this st1) = Some d ∧ world st1 = world st.
Proof.
  rewrite getConfigDigest_eq.
  destruct (memo_digest (this st)) as [d'|] eqn:Hm.
  - intros [= -> <-]. done.
  - destruct (read_all _ _) as [cs|e]; [|done].
    intros [= <- <-]. simpl. split; [|done].
    apply memo_digest_memoised. rewrite sha1_hex_length. lia.
Qed.

Lemma read_all_ext (f f' : Fs.FS) (files : list Path) :
  (∀ p, In p files → Fs.readFileSync f p = Fs.readFileSync f' p) →
  read_all f files = read_all f' files.
Proof.
  induction files as [|p files IH]; intros Hext; simpl; [done|].
  rewrite (Hext p) by (by left). rewrite IH; [done|].
  intros q Hq. apply Hext. by right.
Qed.

Lemma read_all_throw (f : Fs.FS) (files : list Path) (p : Path) (e : Error) :
  In p files → Fs.readFileSync f p = Throw e →
  ∃ p' e', In p' files ∧ Fs.readFileSync f p' = Throw e'
           ∧ read_all f files = Throw e'.
Proof.
  induction files as [|q files IH]; intros Hin Hp; [done|]. simpl.
  destruct (Fs.readFileSync f q) as [c|e0] eqn:Hq.
  - destruct Hin as [->|Hin]; [congruence|].
    destruct (IH Hin Hp) as (p' & e' & Hin' & Hp' & ->).
    exists p', e'. split; [by right | done].
  - exists q, e0. split; [by left | done].
Qed.

End Digest.

Lemma digest_stream_changed (a b : DigestInput) :
  changed a b → stream_of a ≠ stream_of b.
Proof.
  unfold stream_of, digest_stream.
  intros [v v' j cs Hv|v j j' cs Hj|v j pre c c' post Hc|v j cs cs' H1 H2 Hcs];
    cbn [di_version di_options di_contents]; intros E;
    apply (append_inv_head "babel-core"), (append_inv_head Js.NUL) in E.
  - by apply append_inv_tail in E.
  - apply (append_inv_head v), (append_inv_head Js.NUL) in E.
    by apply append_inv_tail in E.
  - apply (append_inv_head v), (append_inv_head Js.NUL), (append_inv_head j) in E.
    rewrite !frame_files_app in E. apply append_inv_head in E.
    cbn [frame_files] in E. by apply append_inv_tail in E.
  - apply (append_inv_head v), (append_inv_head Js.NUL), (append_inv_head j) in E.
    by apply frame_files_inj in E.
Qed.

(** C4. Two fingerprint computations from the same version and the same
    logic-unit bytes give the same digest: another process computes the
    digest the first one got, and in the same process every later call
    returns the stored digest, whatever the files have become. *)
Theorem getConfigDigest_deterministic_memoized `{Runtime}
    (st st' st1 : State) (d : string) :
  memo_digest (this st) = None → memo_digest (this st') = None →
  _babelVersion (this st) = _babelVersion (this st') →
  (∀ p, In p digest_files →
        Fs.readFileSync (fs (world st)) p = Fs.readFileSync (fs (world st')) p) →
  getConfigDigest st = (Ok d, st1) →
  fst (getConfigDigest st') = Ok d
  ∧ (∀ w, getConfigDigest (with_world st1 w) = (Ok d, with_world st1 w))
  ∧ String.length d = 40.
Proof.
  intros Hm Hm' Hv Hfiles Hrun.
  pose proof (getConfigDigest_ok_memo _ _ _ Hrun) as [Hmemo _].
  split; [|split].
  - rewrite getConfigDigest_eq in Hrun. rewrite getConfigDigest_eq.
    rewrite Hm in Hrun. rewrite Hm'.
    rewrite <- (read_all_ext _ _ _ Hfiles), <- Hv.
    destruct (read_all _ _) as [cs|e]; [|done].
    by injection Hrun as -> _.
  - intros w. rewrite getConfigDigest_eq. simpl. by rewrite Hmemo.
  - rewrite getConfigDigest_eq, Hm in Hrun.
    destruct (read_all _ _) as [cs|e]; [|done].
    injection Hrun as <- _. apply sha1_hex_length.
Qed.

Lemma getConfigDigest_deterministic_memoized_witness :
  fst (getConfigDigest (Toy.boot ToyDisks.disk_other))
    = Ok "c3f7d71fbad83b62ed6a9fa75229ffa8335fe440"
  ∧ (∀ w, getConfigDigest
            (with_world (snd (getConfigDigest (Toy.boot Toy.disk))) w)
          = (Ok "c3f7d71fbad83b62ed6a9fa75229ffa8335fe440",
             with_world (snd (getConfigDigest (Toy.boot Toy.disk))) w))
  ∧ String.length "c3f7d71fbad83b62ed6a9fa75229ffa8335fe440" = 40.
Proof.
  apply (getConfigDigest_deterministic_memoized (Toy.boot Toy.disk)).
  - by_evaluation.
  - by_evaluation.
  - by_evaluation.
  - intros p [<-|[<-|[<-|[]]]]; by_evaluation.
  - apply result_pair. by_evaluation.
Defined.

(** C9. When a logic-unit file cannot be read while the fingerprint is
    computed, [getConfigDigest] throws that read error and stores
    nothing. *)
Theorem getConfigDigest_read_failure `{Runtime}
    (st : State) (p : Path) (e : Error) :
  memo_digest (this st) = None →
  In p digest_files →
  Fs.readFileSync (fs (world st)) p = Throw e →
  ∃ p' e', In p' digest_files
           ∧ Fs.readFileSync (fs (world st)) p' = Throw e'
           ∧ getConfigDigest st = (Throw e', st).
Proof.
  intros Hm Hin Hp.
  destruct (read_all_throw _ _ _ _ Hin Hp) as (p' & e' & Hin' & Hp' & Hall).
  exists p', e'. rewrite getConfigDigest_eq, Hm, Hall. done.
Qed.

Lemma getConfigDigest_read_failure_witness :
  ∃ p' e', In p' digest_files
           ∧ Fs.readFileSync (fs (world (Toy.boot ToyDisks.disk_locked))) p' = Throw e'
           ∧ getConfigDigest (Toy.boot ToyDisks.disk_locked)
             = (Throw e', Toy.boot ToyDisks.disk_locked).
Proof.
  apply (getConfigDigest_read_failure (Toy.boot ToyDisks.disk_locked)
           ["app"; "lib"; "NodeTranspiler.js"]
           (FsError EACCES "open" ["app"; "lib"; "NodeTranspiler.js"])).
  - by_evaluation.
  - left. by_evaluation.
  - by_evaluation.
Defined.




(** ** The file system *)

Lemma walk_ok (f : Fs.FS) (sc : string) (cur : Path) (rest : list string) :
  Fs.walk f sc cur rest = Ok tt
  ↔ ∀ k, (k ≤ length rest)%nat → f !! (cur ++ take k rest)%list = Some (Fs.Dir true).
Proof.
  assert (Hbad : ∀ cur rest,
            f !! cur ≠ Some (Fs.Dir true) →
            ¬ ∀ k, (k ≤ length rest)%nat →
                   f !! (cur ++ take k rest)%list = Some (Fs.Dir true)).
  { intros cur' rest' Hne Hk. specialize (Hk 0 (Nat.le_0_l _)).
    rewrite take_0, app_nil_r in Hk. done. }
  revert cur. induction rest as [|c rest IH]; intros cur; simpl.
  - destruct (f !! cur) as [[? ?|[|]]|] eqn:Hc.
    + split; [done|]. intros Hk. exfalso. apply (Hbad cur []); [by rewrite Hc | exact Hk].
    + split; [|done]. intros _ k Hk. assert (k = 0) as -> by (simpl in Hk; lia).
      by rewrite take_0, app_nil_r.
    + split; [done|]. intros Hk. exfalso. apply (Hbad cur []); [by rewrite Hc | exact Hk].
    + split; [done|]. intros Hk. exfalso. apply (Hbad cur []); [by rewrite Hc | exact Hk].
  - destruct (f !! cur) as [[? ?|[|]]|] eqn:Hc.
    + split; [done|]. intros Hk. exfalso. apply (Hbad cur (c :: rest)); [by rewrite Hc | exact Hk].
    + rewrite IH. unfold path_join. split.
      * intros Hk [|k] Hle; simpl.
        -- by rewrite app_nil_r.
        -- specialize (Hk k). rewrite <- app_assoc in Hk. simpl in Hk.
           apply Hk. simpl in Hle. lia.
      * intros Hk k Hle. specialize (Hk (S k)). simpl in Hk.
        rewrite <- app_assoc. simpl. apply Hk. lia.
    + split; [done|]. intros Hk. exfalso. apply (Hbad cur (c :: rest)); [by rewrite Hc | exact Hk].
    + split; [done|]. intros Hk. exfalso. apply (Hbad cur (c :: rest)); [by rewrite Hc | exact Hk].
Qed.

Lemma take_removelast {A} (l : list A) (k : nat) :
  k < length l → take k (removelast l) = take k l.
Proof.
  revert k. induction l as [|x l IH]; intros k Hk; simpl in *; [lia|].
  destruct l as [|y l]; simpl in *.
  - assert (k = 0) as -> by lia. done.
  - destruct k as [|k]; [done|]. simpl. f_equal.
    apply (IH k). lia.
Qed.

Lemma length_removelast {A} (l : list A) :
  length (removelast l) = length l - 1.
Proof.
  induction l as [|x l IH]; simpl; [done|].
  destruct l as [|y l]; simpl in *; [done | lia].
Qed.

Lemma resolve_parent_ok (f : Fs.FS) (sc : string) (p : Path) :
  Fs.resolve_parent f sc p = Ok tt
  ↔ ∀ k, k < length p → f !! take k p = Some (Fs.Dir true).
Proof.
  unfold Fs.resolve_parent. destruct p as [|c p].
  - split; [simpl; lia | done].
  - rewrite walk_ok. rewrite length_removelast. simpl length.
    split; intros Hk k Hlt.
    + rewrite <- take_removelast by (simpl; lia). apply (Hk k). lia.
    + rewrite app_nil_l, take_removelast by (simpl; lia). apply Hk. lia.
Qed.

Lemma resolve_parent_syscall (f : Fs.FS) (sc sc' : string) (p : Path) :
  Fs.resolve_parent f sc p = Ok tt → Fs.resolve_parent f sc' p = Ok tt.
Proof. rewrite !resolve_parent_ok. done. Qed.

Lemma stat_ok (f : Fs.FS) (sc : string) (p : Path) (n : Fs.Node) :
  Fs.stat f sc p = Ok n
  ↔ Fs.resolve_parent f sc p = Ok tt ∧ f !! p = Some n.
Proof.
  unfold Fs.stat. destruct (Fs.resolve_parent f sc p) as [[]|e].
  - destruct (f !! p) as [n'|]; split; try done.
    + intros [= ->]. done.
    + intros [_ [= ->]]. done.
    + intros [_ ?]. done.
  - split; [done | intros [? _]; done].
Qed.

Lemma stat_syscall (f : Fs.FS) (sc sc' : string) (p : Path) (n : Fs.Node) :
  Fs.stat f sc p = Ok n → Fs.stat f sc' p = Ok n.
Proof.
  rewrite !stat_ok. intros [Hp Hn]. split; [|done].
  by apply (resolve_parent_syscall f sc).
Qed.

Lemma take_lt_ne {A} (p : list A) (k : nat) : k < length p → take k p ≠ p.
Proof.
  intros Hk E. apply (f_equal length) in E. rewrite length_take in E. lia.
Qed.

(** A file written to a temporary name and then renamed is found, whole,
    under the final name. *)
Lemma write_then_rename (f1 f2 f3 : Fs.FS) (tmp new : Path) (data sc : string) :
  Fs.writeFile f1 tmp data = Ok f2 →
  Fs.rename f2 tmp new = Ok f3 →
  Fs.stat f3 sc new = Ok (Fs.File data true).
Proof.
  intros Hw Hr.
  assert (Hf2 : f2 !! tmp = Some (Fs.File data true)).
  { unfold Fs.writeFile in Hw.
    destruct (Fs.resolve_parent f1 "open" tmp); [|done].
    destruct (f1 !! tmp) as [[? [|]|?]|]; try done;
      injection Hw as <-; apply lookup_insert_eq. }
  unfold Fs.rename in Hr.
  destruct (Fs.stat f2 "rename" tmp) as [n|] eqn:Hs; [|done].
  apply stat_ok in Hs as [_ Hn]. rewrite Hf2 in Hn. injection Hn as <-.
  destruct (Fs.resolve_parent f2 "rename" new) as [[]|] eqn:Hp; [|done].
  assert (Hf3 : f3 = <[new := Fs.File data true]> (delete tmp f2)).
  { destruct (f2 !! new) as [[? ?|?]|]; try done; by injection Hr. }
  clear Hr. subst f3. apply stat_ok. split; [|apply lookup_insert_eq].
  apply resolve_parent_ok. intros k Hk.
  rewrite resolve_parent_ok in Hp. specialize (Hp k Hk).
  rewrite lookup_insert_ne by (apply not_eq_sym, take_lt_ne; done).
  rewrite lookup_delete_ne; [done|]. intros E. rewrite <- E in Hp. congruence.
Qed.

Lemma readFileSync_stat (f : Fs.FS) (p : Path) (data : string) :
  Fs.stat f "open" p = Ok (Fs.File data true) → Fs.readFileSync f p = Ok data.
Proof. unfold Fs.readFileSync. by intros ->. Qed.

(** After a write that succeeded, a failed rename leaves the temporary
    file in place, so that [unlink] removes it. *)
Lemma unlink_after_write (f1 f2 : Fs.FS) (tmp : Path) (data : string) :
  Fs.writeFile f1 tmp data = Ok f2 → Fs.unlink f2 tmp = Ok (delete tmp f2).
Proof.
  intros Hw. unfold Fs.writeFile in Hw.
  destruct (Fs.resolve_parent f1 "open" tmp) as [[]|] eqn:Hp; [|done].
  assert (Hf2 : f2 = <[tmp := Fs.File data true]> f1).
  { destruct (f1 !! tmp) as [[? [|]|?]|]; try done; by injection Hw. }
  subst f2. unfold Fs.unlink.
  assert (Hs : Fs.stat (<[tmp := Fs.File data true]> f1) "unlink" tmp
               = Ok (Fs.File data true)).
  { apply stat_ok. split; [|apply lookup_insert_eq].
    apply resolve_parent_ok. intros k Hk.
    rewrite resolve_parent_ok in Hp.
    rewrite lookup_insert_ne by (apply not_eq_sym, take_lt_ne; done). auto. }
  by rewrite Hs.
Qed.

(** ** The transpiler object *)

Section Transpiler.
Context `{Runtime}.

(** A newly constructed object holds no engine, no cache directory and no
    digest. *)
Lemma new_NodeTranspiler_fresh (babelVersion : option string)
    (getBabel : option (unit → Babel)) (t : NodeTranspiler) :
  new_NodeTranspiler babelVersion getBabel = Ok t →
  _babel t = None ∧ _cacheDir t = None ∧ memo_digest t = None.
Proof.
  unfold new_NodeTranspiler.
  destruct babelVersion as [v|]; [destruct (Js.truthy v), getBabel|];
    intros [= <-]; done.
Qed.

Example boot_is_constructed (f : Fs.FS) :
  new_NodeTranspiler (Some "5.8.38") (Some (λ _, Toy.babel))
  = Ok (this (Toy.boot f)).
Proof. reflexivity. Qed.

Lemma transform_eq (src filename : string) (st : State) :
  transform src filename st =
    let st0 := {| this := acquired (this st);
                  world := count_babel_call (world st) |} in
    match engine_of (this st) src BABEL_OPTIONS with
    | Ok out => (Ok out, st0)
    | Throw e =>
        (Throw e, with_world st0 (console_error (transpile_log filename) (world st0)))
    end.
Proof.
  destruct st as [t w]. unfold transform, acquired, engine_of. simpl.
  destruct t as [v g b cd dg]. simpl.
  destruct b as [b|]; simpl;
    unfold bind, try_catch, get_this, set_babel, put_this, modify_world, lift,
      throw, ret, bind; simpl.
  - destruct (b src BABEL_OPTIONS); reflexivity.
  - destruct (g tt src BABEL_OPTIONS); reflexivity.
Qed.

Lemma _getCacheFilename_eq (src : string) (st : State) :
  _getCacheFilename src st =
    match _cacheDir (this st) with
    | Some d => (Ok (path_join d (sha1_hex src ++ ".js")), st)
    | None =>
        match getConfigDigest st with
        | (Ok digest, st') =>
            (Ok (path_join (cache_dir_of digest) (sha1_hex src ++ ".js")),
             {| this := with_cacheDir (cache_dir_of digest) (this st');
                world := world st' |})
        | (Throw e, st') => (Throw e, st')
        end
    end.
Proof.
  unfold _getCacheFilename, bind at 1, get_this.
  destruct (_cacheDir (this st)) as [d|].
  - reflexivity.
  - unfold bind at 1. unfold bind at 1.
    destruct (getConfigDigest st) as [[digest|e] st']; reflexivity.
Qed.

Lemma _getCacheFilename_ok (src : string) (st st0 : State) (p : Path) :
  _getCacheFilename src st = (Ok p, st0) →
  world st0 = world st
  ∧ engine_of (this st0) = engine_of (this st)
  ∧ ∃ d, _cacheDir (this st0) = Some d ∧ p = path_join d (sha1_hex src ++ ".js").
Proof.
  rewrite _getCacheFilename_eq.
  destruct (_cacheDir (this st)) as [d|] eqn:Hd.
  - intros [= <- <-]. eauto.
  - rewrite getConfigDigest_eq.
    destruct (memo_digest (this st)) as [dg|].
    + intros [= <- <-]. simpl. eauto.
    + destruct (read_all _ _) as [cs|e]; [|done].
      intros [= <- <-]. simpl. eauto.
Qed.

Lemma _getCacheFilename_memo (src : string) (st : State) (d : Path) :
  _cacheDir (this st) = Some d →
  _getCacheFilename src st = (Ok (path_join d (sha1_hex src ++ ".js")), st).
Proof. intros Hd. by rewrite _getCacheFilename_eq, Hd. Qed.

Lemma transformWithCache_eq (src filename : string) (st : State) :
  transformWithCache src filename st =
    match _getCacheFilename src st with
    | (Throw e, st0) => (Throw e, st0)
    | (Ok p, st0) =>
        if Fs.existsSync (fs (world st0)) p then
          (Fs.readFileSync (fs (world st0)) p, st0)
        else
          match transform src filename st0 with
          | (Ok out, st') =>
              (Ok out, with_world st' (cacheWriteAsync p out (world st')))
          | (Throw e, st') => (Throw e, st')
          end
    end.
Proof.
  unfold transformWithCache, bind at 1.
  destruct (_getCacheFilename src st) as [[p|e] st0]; [|done].
  unfold bind at 1, existsSync, bind at 1, get_world, ret.
  destruct (Fs.existsSync (fs (world st0)) p).
  - reflexivity.
  - unfold bind at 1.
    destruct (transform src filename st0) as [[out|e] st']; reflexivity.
Qed.

(** ** The event loop *)

Lemma tick_idle (w : World) : pending w = [] → tick w = w.
Proof. unfold tick. by intros ->. Qed.

Lemma iter_tick_idle (n : nat) (w : World) :
  pending w = [] → Nat.iter n tick w = w.
Proof.
  intros Hw. induction n as [|n IH]; simpl; [done|].
  rewrite IH. by apply tick_idle.
Qed.

Lemma run_event_loop_idle (w : World) : pending w = [] → run_event_loop w = w.
Proof. intros Hw. unfold run_event_loop. by apply iter_tick_idle. Qed.

Lemma queue_weight_app (q q' : list Task) :
  queue_weight (q ++ q') = queue_weight q + queue_weight q'.
Proof. induction q as [|t q IH]; simpl; [done | rewrite IH; lia]. Qed.

(** A turn uses up at least one unit of the weight of the queue. *)
Lemma tick_weight (w : World) :
  pending w ≠ [] →
  queue_weight (pending (tick w)) < queue_weight (pending w).
Proof.
  unfold tick. destruct (pending w) as [|t q] eqn:Hq; [done|]. intros _.
  destruct t as [b tmp f s|tmp f s|tmp f|tmp]; simpl.
  - destruct (Fs.mkdirp _ _); simpl; [rewrite queue_weight_app; simpl|]; lia.
  - destruct (Fs.writeFile _ _ _); simpl; [rewrite queue_weight_app; simpl|]; lia.
  - destruct (Fs.rename _ _ _); simpl; [|rewrite queue_weight_app; simpl]; lia.
  - destruct (Fs.unlink _ _); simpl; lia.
Qed.

Lemma iter_tick_drains (n : nat) (w : World) :
  (queue_weight (pending w) ≤ n)%nat → pending (Nat.iter n tick w) = [].
Proof.
  revert w. induction n as [|n IH]; intros w Hn.
  - simpl. destruct (pending w) as [|[] q]; simpl in Hn; [done|lia..].
  - rewrite Nat.iter_succ_r. destruct (pending w) as [|t q] eqn:Hq.
    + rewrite tick_idle by done. apply IH. rewrite Hq. simpl. lia.
    + apply IH. assert (pending w ≠ []) as Hne by (by rewrite Hq).
      apply tick_weight in Hne. rewrite Hq in Hne. lia.
Qed.

(** The event loop always comes to rest. *)
Lemma run_event_loop_drains (w : World) : pending (run_event_loop w) = [].
Proof. unfold run_event_loop. by apply iter_tick_drains. Qed.

(** One write-back, run to its end from an idle process, is one pass of
    [writeback]. *)
Lemma run_event_loop_writeback (w : World)
    (basedir tmpName filename : Path) (src : string) :
  pending w = [] →
  run_event_loop (schedule (TMkdirp basedir tmpName filename src) w)
  = writeback basedir tmpName filename src w.
Proof.
  destruct w as [f c q u b]. simpl. intros ->.
  unfold run_event_loop, writeback. simpl.
  unfold tick at 4. simpl.
  destruct (Fs.mkdirp f basedir) as [f1|e]; simpl.
  2: { rewrite !tick_idle; done. }
  unfold tick at 3. simpl.
  destruct (Fs.writeFile f1 tmpName src) as [f2|e]; simpl.
  2: { rewrite !tick_idle; done. }
  unfold tick at 2. simpl.
  destruct (Fs.rename f2 tmpName filename) as [f3|e]; simpl.
  { rewrite !tick_idle; done. }
  unfold tick. simpl.
  destruct (Fs.unlink f2 tmpName) as [f3|e']; reflexivity.
Qed.

Lemma writeback_pending (w : World) (b t f : Path) (s : string) :
  pending (writeback b t f s w) = pending w.
Proof.
  unfold writeback.
  destruct (Fs.mkdirp _ _); [|done].
  destruct (Fs.writeFile _ _ _); [|done].
  destruct (Fs.rename _ _ _); [done|].
  destruct (Fs.unlink _ _); done.
Qed.

Lemma snoc_ne {A} (l : list A) (x : A) : (l ++ [x])%list ≠ l.
Proof.
  intros E. apply (f_equal length) in E. rewrite length_app in E.
  simpl in E. lia.
Qed.

End Transpiler.

(** ** The cache *)



(** C2, as the code has it. A failing existence check, whatever its
    cause, reads as a miss and the call recomputes; but once the check
    has found the cache path, a failing read is thrown to the caller and
    nothing is recomputed. *)
Theorem lookup_failure_policy `{Runtime}
    (src filename : string) (st st0 : State) (p : Path) :
  _getCacheFilename src st = (Ok p, st0) →
  (∀ e, Fs.stat (fs (world st)) "stat" p = Throw e →
        fst (transformWithCache src filename st)
        = fst (transform src filename st0))
  ∧ (∀ n e, Fs.stat (fs (world st)) "stat" p = Ok n →
            Fs.readFileSync (fs (world st)) p = Throw e →
            transformWithCache src filename st = (Throw e, st0)).
Proof.
  intros Hp. rewrite transformWithCache_eq, Hp.
  apply _getCacheFilename_ok in Hp as (-> & _ & _).
  unfold Fs.existsSync. split.
  - intros e ->. by destruct (transform src filename st0) as [[?|?] ?].
  - intros n e -> ->. done.
Qed.

Lemma lookup_failure_policy_witness :
  fst (transformWithCache Toy.good_src "a.js" (Toy.boot Scenarios.disk_cache_sealed))
  = fst (transform Toy.good_src "a.js"
           (snd (_getCacheFilename Toy.good_src (Toy.boot Scenarios.disk_cache_sealed))))
  ∧ transformWithCache Toy.good_src "a.js" (Toy.boot Scenarios.disk_cache_locked)
    = (Throw (FsError EACCES "open" Toy.good_cache_file),
       snd (_getCacheFilename Toy.good_src (Toy.boot Scenarios.disk_cache_locked))).
Proof.
  split.
  - refine (proj1 (lookup_failure_policy _ _ _ _ Toy.good_cache_file _)
              (FsError EACCES "stat" ["tmp"; "nuclide-node-transpiler"]) _);
      [apply result_pair|]; by_evaluation.
  - refine (proj2 (lookup_failure_policy _ _ _ _ Toy.good_cache_file _)
              (Fs.File "stale" false) _ _ _);
      [apply result_pair| |]; by_evaluation.
Defined.

(** C2, as stated, fails: the cache entry exists and cannot be read; the
    call throws the read error although recomputation would have
    succeeded, and the engine is never invoked. *)
Lemma lookup_read_error_reaches_caller :
  Fs.existsSync Scenarios.disk_cache_locked Toy.good_cache_file = true
  ∧ Fs.readFileSync Scenarios.disk_cache_locked Toy.good_cache_file
    = Throw (FsError EACCES "open" Toy.good_cache_file)
  ∧ fst (transformWithCache Toy.good_src "a.js" (Toy.boot Scenarios.disk_cache_locked))
    = Throw (FsError EACCES "open" Toy.good_cache_file)
  ∧ fst (transform Toy.good_src "a.js" (Toy.boot Scenarios.disk_cache_locked))
    = Ok Scenarios.good_out
  ∧ babel_calls (world (snd (transformWithCache Toy.good_src "a.js"
                               (Toy.boot Scenarios.disk_cache_locked)))) = 0.
Proof.
  split; [by_evaluation|].
  split; [by_evaluation|].
  split; [by_evaluation|].
  split; by_evaluation.
Qed.

(** C6, as the code has it. When the engine rejects the input,
    [transform] writes one line naming the file to the console and
    rethrows the engine's own error, unchanged, to its caller. *)
Theorem transform_rethrows_engine_error `{Runtime}
    (src filename : string) (st : State) (e : Error) :
  engine_of (this st) src BABEL_OPTIONS = Throw e →
  ∃ st1, transform src filename st = (Throw e, st1)
         ∧ console (world st1)
           = (console (world st) ++
              [[LStr ("Error transpiling " ++ Js.dquote ++ filename ++ Js.dquote)]])%list
         ∧ babel_calls (world st1) = S (babel_calls (world st))
         ∧ fs (world st1) = fs (world st)
         ∧ pending (world st1) = pending (world st).
Proof.
  intros He. rewrite transform_eq, He. simpl. eauto 10.
Qed.

Lemma transform_rethrows_engine_error_witness :
  ∃ st1, transform Toy.bad_src "a.js" (Toy.boot Toy.disk)
         = (Throw (EngineError "unknown: Unexpected token (1:13)"), st1)
         ∧ console (world st1)
           = (console (world (Toy.boot Toy.disk)) ++
              [[LStr ("Error transpiling " ++ Js.dquote ++ "a.js" ++ Js.dquote)]])%list
         ∧ babel_calls (world st1) = S (babel_calls (world (Toy.boot Toy.disk)))
         ∧ fs (world st1) = fs (world (Toy.boot Toy.disk))
         ∧ pending (world st1) = pending (world (Toy.boot Toy.disk)).
Proof.
  apply (transform_rethrows_engine_error Toy.bad_src "a.js" (Toy.boot Toy.disk)).
  by_evaluation.
Defined.

(** C6, as stated, fails: the thrown error is the engine's diagnostic
    alone; it is the same for two different file names, so no file name
    can be read off it. *)
Lemma transform_error_lacks_filename :
  fst (transform Toy.bad_src "a.js" (Toy.boot Toy.disk))
  = Throw (EngineError "unknown: Unexpected token (1:13)")
  ∧ fst (transform Toy.bad_src "b.js" (Toy.boot Toy.disk))
    = Throw (EngineError "unknown: Unexpected token (1:13)")
  ∧ ¬ ∃ filename_of : Error → string,
        ∀ src filename st e st1,
          transform src filename st = (Throw e, st1) → filename_of e = filename.
Proof.
  split; [by_evaluation|]. split; [by_evaluation|].
  intros [filename_of Hwrap].
  pose proof (Hwrap Toy.bad_src "a.js" (Toy.boot Toy.disk) _ _ eq_refl) as Ha.
  pose proof (Hwrap Toy.bad_src "b.js" (Toy.boot Toy.disk) _ _ eq_refl) as Hb.
  simpl in Ha, Hb. congruence.
Qed.

(** C10. When the engine throws on a miss, [transformWithCache] throws
    the engine's error and schedules nothing: the file system, the queue
    of pending operations and the supply of temporary names are as
    before, and the event loop has nothing to do. *)
Theorem transformWithCache_engine_failure `{Runtime}
    (src filename : string) (st st0 : State) (p : Path) (e : Error) :
  _getCacheFilename src st = (Ok p, st0) →
  Fs.existsSync (fs (world st)) p = false →
  engine_of (this st) src BABEL_OPTIONS = Throw e →
  ∃ st1, transformWithCache src filename st = (Throw e, st1)
         ∧ fs (world st1) = fs (world st)
         ∧ pending (world st1) = pending (world st)
         ∧ uuid_counter (world st1) = uuid_counter (world st)
         ∧ (pending (world st) = [] → settle st1 = st1).
Proof.
  intros Hp Hmiss He. rewrite transformWithCache_eq, Hp.
  apply _getCacheFilename_ok in Hp as (Hw & Heng & _).
  rewrite Hw, Hmiss, transform_eq, Heng, He. simpl.
  eexists. split; [reflexivity|]. simpl. rewrite Hw.
  repeat split. intros Hidle. unfold settle. simpl.
  rewrite run_event_loop_idle by done. done.
Qed.

Lemma transformWithCache_engine_failure_witness :
  ∃ st1, transformWithCache Toy.bad_src "a.js" (Toy.boot Toy.disk)
         = (Throw (EngineError "unknown: Unexpected token (1:13)"), st1)
         ∧ fs (world st1) = fs (world (Toy.boot Toy.disk))
         ∧ pending (world st1) = pending (world (Toy.boot Toy.disk))
         ∧ uuid_counter (world st1) = uuid_counter (world (Toy.boot Toy.disk))
         ∧ (pending (world (Toy.boot Toy.disk)) = [] → settle st1 = st1).
Proof.
  apply (transformWithCache_engine_failure Toy.bad_src "a.js" (Toy.boot Toy.disk)
           (snd (_getCacheFilename Toy.bad_src (Toy.boot Toy.disk)))
           Scenarios.bad_cache_file).
  - apply result_pair. by_evaluation.
  - by_evaluation.
  - by_evaluation.
Defined.

(** C8. On a miss with a cache directory that rejects every creation,
    [transformWithCache] returns the engine's output; the write-back then
    fails on its own, leaves one line on the console and the file system
    as it was, and nothing reaches the caller. *)
Theorem transformWithCache_unwritable_cache `{Runtime}
    (src filename out : string) (st st0 : State) (p : Path) :
  pending (world st) = [] →
  _getCacheFilename src st = (Ok p, st0) →
  Fs.existsSync (fs (world st)) p = false →
  engine_of (this st) src BABEL_OPTIONS = Ok out →
  cache_dir_unwritable (fs (world st)) (path_dirname p) →
  ∃ st1, transformWithCache src filename st = (Ok out, st1)
         ∧ (∃ e, console (world (settle st1))
                 = (console (world st) ++ [cache_log e])%list)
         ∧ fs (world (settle st1)) = fs (world st)
         ∧ pending (world (settle st1)) = [].
Proof.
  intros Hidle Hp Hmiss He Hro. rewrite transformWithCache_eq, Hp.
  apply _getCacheFilename_ok in Hp as (Hw & Heng & _).
  rewrite Hw, Hmiss, transform_eq, Heng, He. simpl.
  eexists. split; [reflexivity|].
  unfold settle, cacheWriteAsync. simpl.
  rewrite run_event_loop_writeback by (simpl; congruence).
  rewrite writeback_pending. simpl. rewrite Hw.
  unfold writeback. simpl.
  destruct Hro as [[e ->]|[-> Hwrite]].
  - simpl. eauto.
  - destruct (Hwrite (String "."%char (uuid_v4 (uuid_counter (world st)))) out)
      as [e ->].
    simpl. eauto.
Qed.

Lemma transformWithCache_unwritable_cache_witness :
  ∃ st1, transformWithCache Toy.good_src "a.js" (Toy.boot Scenarios.disk_cache_sealed)
         = (Ok Scenarios.good_out, st1)
         ∧ (∃ e, console (world (settle st1))
                 = (console (world (Toy.boot Scenarios.disk_cache_sealed))
                    ++ [cache_log e])%list)
         ∧ fs (world (settle st1)) = fs (world (Toy.boot Scenarios.disk_cache_sealed))
         ∧ pending (world (settle st1)) = [].
Proof.
  apply (transformWithCache_unwritable_cache Toy.good_src "a.js" Scenarios.good_out
           (Toy.boot Scenarios.disk_cache_sealed)
           (snd (_getCacheFilename Toy.good_src (Toy.boot Scenarios.disk_cache_sealed)))
           Toy.good_cache_file).
  - by_evaluation.
  - apply result_pair. by_evaluation.
  - by_evaluation.
  - by_evaluation.
  - left. eexists. by_evaluation.
Defined.

(** C3, as the code has it. [cacheWriteAsync] only schedules; the
    temporary file lies in the directory of the final path.  Run to its
    end, the write-back either puts the whole output under the final
    name, or stops at the first failing step, which it reports on the
    console: a failed directory creation or write leaves the file system
    as that step found it, and after a failed rename the temporary file is
    removed.  A failure of that removal is dropped without a word. *)
Theorem cacheWriteAsync_protocol `{Runtime}
    (filename : Path) (src : string) (w : World) :
  pending w = [] →
  let basedir := path_dirname filename in
  let tmpName := path_join basedir ("." ++ uuid_v4 (uuid_counter w)) in
  let w0 := cacheWriteAsync filename src w in
  let w1 := run_event_loop w0 in
  (fs w0 = fs w ∧ console w0 = console w
   ∧ pending w0 = [TMkdirp basedir tmpName filename src]
   ∧ uuid_counter w0 = S (uuid_counter w))
  ∧ path_dirname tmpName = path_dirname filename
  ∧ pending w1 = []
  ∧ (∀ e, Fs.mkdirp (fs w) basedir = Throw e →
          fs w1 = fs w ∧ console w1 = (console w ++ [cache_log e])%list)
  ∧ (∀ fs1 e, Fs.mkdirp (fs w) basedir = Ok fs1 →
              Fs.writeFile fs1 tmpName src = Throw e →
              fs w1 = fs1 ∧ console w1 = (console w ++ [cache_log e])%list)
  ∧ (∀ fs1 fs2 fs3, Fs.mkdirp (fs w) basedir = Ok fs1 →
                    Fs.writeFile fs1 tmpName src = Ok fs2 →
                    Fs.rename fs2 tmpName filename = Ok fs3 →
                    fs w1 = fs3 ∧ console w1 = console w
                    ∧ Fs.readFileSync fs3 filename = Ok src)
  ∧ (∀ fs1 fs2 e, Fs.mkdirp (fs w) basedir = Ok fs1 →
                  Fs.writeFile fs1 tmpName src = Ok fs2 →
                  Fs.rename fs2 tmpName filename = Throw e →
                  fs w1 = delete tmpName fs2
                  ∧ console w1 = (console w ++ [cache_log e])%list)
  ∧ (∀ w' q e, pending w' = TUnlink tmpName :: q →
               Fs.unlink (fs w') tmpName = Throw e →
               tick w' = set_pending q w').
Proof.
  intros Hidle basedir tmpName w0 w1.
  assert (Hw1 : w1 = writeback basedir tmpName filename src
                       (snd (next_uuid w))).
  { unfold w1, w0, cacheWriteAsync. simpl.
    by rewrite run_event_loop_writeback. }
  split; [|split; [|split; [|split; [|split; [|split; [|split]]]]]].
  - unfold w0, cacheWriteAsync. simpl. by rewrite Hidle.
  - unfold tmpName, path_join, path_dirname. by rewrite removelast_last.
  - rewrite Hw1, writeback_pending. done.
  - intros e He. rewrite Hw1. unfold writeback. simpl. by rewrite He.
  - intros fs1 e H1 H2. rewrite Hw1. unfold writeback. simpl.
    by rewrite H1, H2.
  - intros fs1 fs2 fs3 H1 H2 H3. rewrite Hw1. unfold writeback. simpl.
    rewrite H1, H2, H3. simpl. repeat split.
    apply readFileSync_stat. eapply write_then_rename; eauto.
  - intros fs1 fs2 e H1 H2 H3. rewrite Hw1. unfold writeback. simpl.
    rewrite H1, H2, H3. rewrite (unlink_after_write _ _ _ _ H2). done.
  - intros w' q e Hq He. unfold tick. rewrite Hq. simpl. by rewrite He.
Qed.

Lemma cacheWriteAsync_protocol_witness :
  pending (world (Toy.boot Toy.disk)) = []
  ∧ path_dirname (path_join (path_dirname Toy.good_cache_file)
                    ("." ++ uuid_v4 (uuid_counter (world (Toy.boot Toy.disk)))))
    = path_dirname Toy.good_cache_file
  ∧ pending (run_event_loop
               (cacheWriteAsync Toy.good_cache_file Scenarios.good_out
                  (world (Toy.boot Toy.disk)))) = [].
Proof.
  split; [by_evaluation|].
  pose proof (cacheWriteAsync_protocol Toy.good_cache_file Scenarios.good_out
                (world (Toy.boot Toy.disk)) eq_refl) as (_ & Hdir & Hend & _).
  split; [exact Hdir | exact Hend].
Defined.

(** C3, as stated, fails at the clean-up: a cleaner of the temporary
    directory removes the temporary file between the write and the
    rename; the rename fails and is reported, the removal of the
    temporary file fails too, and that failure leaves no trace on the
    console. *)
Lemma cleanup_failure_is_not_logged :
  rtc step
    (cacheWriteAsync Toy.good_cache_file Scenarios.good_out (world (Toy.boot Toy.disk)))
    Scenarios.world_swept
  ∧ pending Scenarios.world_swept
    = [TRename Scenarios.tmp_file Toy.good_cache_file]
  ∧ console Scenarios.world_swept = []
  ∧ pending (tick Scenarios.world_swept) = [TUnlink Scenarios.tmp_file]
  ∧ console (tick Scenarios.world_swept)
    = [cache_log (FsError ENOENT "rename" Scenarios.tmp_file)]
  ∧ task_failure (TUnlink Scenarios.tmp_file) (tick Scenarios.world_swept)
    = Some (FsError ENOENT "unlink" Scenarios.tmp_file)
  ∧ console (tick (tick Scenarios.world_swept))
    = [cache_log (FsError ENOENT "rename" Scenarios.tmp_file)]
  ∧ pending (tick (tick Scenarios.world_swept)) = []
  ∧ ¬ (∀ t q w e, pending w = t :: q → task_failure t w = Some e →
                  In (cache_log e) (console (tick w))).
Proof.
  split.
  { unfold Scenarios.world_swept, Scenarios.world_written.
    eapply rtc_l; [apply step_tick; vm_compute; discriminate|].
    eapply rtc_l; [apply step_tick; vm_compute; discriminate|].
    apply rtc_once, step_environment. }
  split; [by_evaluation|].
  split; [by_evaluation|].
  split; [by_evaluation|].
  split; [by_evaluation|].
  assert (Hfail : task_failure (TUnlink Scenarios.tmp_file) (tick Scenarios.world_swept)
                  = Some (FsError ENOENT "unlink" Scenarios.tmp_file))
    by (by_evaluation).
  assert (Hcon : console (tick (tick Scenarios.world_swept))
                 = [cache_log (FsError ENOENT "rename" Scenarios.tmp_file)])
    by (by_evaluation).
  split; [exact Hfail|]. split; [exact Hcon|].
  split; [by_evaluation|].
  intros Hclaim.
  assert (Hq : pending (tick Scenarios.world_swept) = [TUnlink Scenarios.tmp_file])
    by (by_evaluation).
  specialize (Hclaim _ _ _ _ Hq Hfail). rewrite Hcon in Hclaim.
  destruct Hclaim as [E|[]]. discriminate E.
Qed.

(** ** The file tree *)

Import FileTree.

Section FileTreeFacts.
Local Open Scope Z_scope.

Lemma FileTreeNode_forest_ind (P : FileTreeNode → Prop) :
  (∀ n, Forall P (children n) → P n) → ∀ n, P n.
Proof.
  intros Hstep. fix IH 1. intros n. apply Hstep.
  destruct n as [r t c s cs]. simpl.
  induction cs as [|x cs IHcs]; constructor; [apply IH | exact IHcs].
Qed.

Lemma findFirstNodeToRender_under_eq (node : FileTreeNode) (k : Z) :
  findFirstNodeToRender_under node k = findFirstNodeToRender (children node) k.
Proof. by destruct node. Qed.

Lemma findIndexOfTheTrackedNode_under_eq (node : FileTreeNode) :
  findIndexOfTheTrackedNode_under node
  = findIndexOfTheTrackedNode (children node).
Proof. by destruct node. Qed.

Lemma count_fold (l : list FileTreeNode) (acc : Z) :
  fold_left (λ sum c, sum + shownChildrenBelow c) l acc
  = acc + countShownNodes l.
Proof.
  unfold countShownNodes. revert acc.
  induction l as [|x l IH]; intros acc; simpl; [lia|].
  rewrite (IH (acc + _)), (IH (0 + _)). lia.
Qed.

Lemma countShownNodes_cons (n : FileTreeNode) (l : list FileTreeNode) :
  countShownNodes (n :: l) = shownChildrenBelow n + countShownNodes l.
Proof. unfold countShownNodes. simpl. rewrite count_fold. unfold countShownNodes. lia. Qed.

Lemma countShownNodes_app (l l' : list FileTreeNode) :
  countShownNodes (l ++ l') = countShownNodes l + countShownNodes l'.
Proof.
  induction l as [|x l IH]; [unfold countShownNodes; simpl; lia|].
  simpl. rewrite !countShownNodes_cons, IH. lia.
Qed.

Lemma well_counted_unfold (n : FileTreeNode) :
  well_counted n = true ↔
  0 ≤ shownChildrenBelow n
  ∧ (shownChildrenBelow n ≤ 1
     ∨ shownChildrenBelow n = 1 + countShownNodes (children n))
  ∧ Forall (λ c, well_counted c = true) (children n).
Proof.
  destruct n as [r t c s cs]. simpl.
  rewrite !andb_true_iff, orb_true_iff, forallb_forall, Forall_forall.
  rewrite Z.leb_le, Z.leb_le, Z.eqb_eq, count_fold.
  setoid_rewrite <- list_elem_of_In. intuition lia.
Qed.

Lemma shown_rows_unfold (n : FileTreeNode) :
  shown_rows n =
    if shownChildrenBelow n <=? 0 then []
    else n :: (if shownChildrenBelow n =? 1 then [] else rows (children n)).
Proof. by destruct n. Qed.

Lemma rows_cons (n : FileTreeNode) (l : list FileTreeNode) :
  rows (n :: l) = (shown_rows n ++ rows l)%list.
Proof. reflexivity. Qed.

Lemma rows_app (l l' : list FileTreeNode) :
  rows (l ++ l') = (rows l ++ rows l')%list.
Proof. unfold rows. by rewrite map_app, concat_app. Qed.

Lemma rows_length_node (n : FileTreeNode) :
  well_counted n = true →
  Z.of_nat (length (shown_rows n)) = shownChildrenBelow n.
Proof.
  induction n as [n IH] using FileTreeNode_forest_ind. intros Hwf.
  apply well_counted_unfold in Hwf as (H0 & Hs & Hcs).
  assert (Hrows : Z.of_nat (length (rows (children n)))
                  = countShownNodes (children n)).
  { clear Hs. induction (children n) as [|c cs IHcs].
    - reflexivity.
    - rewrite rows_cons, length_app, countShownNodes_cons, Nat2Z.inj_add.
      inversion IH; inversion Hcs; subst. rewrite IHcs by done. f_equal. auto. }
  rewrite shown_rows_unfold.
  destruct (Z.leb_spec (shownChildrenBelow n) 0); [simpl; lia|].
  destruct (Z.eqb_spec (shownChildrenBelow n) 1); [simpl; lia|].
  simpl length. lia.
Qed.

Lemma rows_length (l : list FileTreeNode) :
  Forall (λ c, well_counted c = true) l →
  Z.of_nat (length (rows l)) = countShownNodes l.
Proof.
  induction 1 as [|c cs Hc Hcs IH]; [reflexivity|].
  rewrite rows_cons, length_app, countShownNodes_cons, Nat2Z.inj_add, IH.
  f_equal. by apply rows_length_node.
Qed.

Lemma countShownNodes_nonneg (l : list FileTreeNode) :
  Forall (λ c, well_counted c = true) l → 0 ≤ countShownNodes l.
Proof. intros Hl. rewrite <- rows_length by done. lia. Qed.

(** The scan of [findFirstNodeToRender], started with [skipped] rows
    behind it, finds row [firstToRender - skipped] of the list. *)
Lemma find_first_rows (l : list FileTreeNode) :
  Forall (λ c, well_counted c = true) l →
  Forall (λ c, ∀ k, 0 ≤ k →
            findFirstNodeToRender_under c k = rows (children c) !! Z.to_nat k) l →
  ∀ skipped k, skipped ≤ k →
    find_first findFirstNodeToRender_under k l skipped
    = rows l !! Z.to_nat (k - skipped).
Proof.
  induction l as [|r l IH]; intros Hwf Hunder skipped k Hk; [done|].
  inversion Hwf as [|? ? Hr Hl]; inversion Hunder as [|? ? Hur Hul]; subst.
  pose proof (rows_length_node r Hr) as Hlen.
  pose proof Hr as Hr'. apply well_counted_unfold in Hr' as (H0 & Hs & Hcs).
  simpl. rewrite rows_cons.
  destruct (Z.gtb_spec (skipped + shownChildrenBelow r) k) as [Hin|Hout].
  - rewrite shown_rows_unfold in *.
    destruct (Z.leb_spec (shownChildrenBelow r) 0) as [|Hpos]; [lia|].
    destruct (Z.eqb_spec skipped k) as [->|Hne].
    + by rewrite Z.sub_diag.
    + rewrite Hur by lia.
      destruct (Z.eqb_spec (shownChildrenBelow r) 1) as [|Hopen]; [lia|].
      assert (Hrows := rows_length _ Hcs).
      replace (Z.to_nat (k - skipped)) with (S (Z.to_nat (k - skipped - 1)))
        by lia.
      simpl. rewrite lookup_app_l by lia. done.
  - rewrite IH by (done || lia).
    rewrite lookup_app_r by lia. f_equal. lia.
Qed.

Lemma findFirstNodeToRender_under_rows (n : FileTreeNode) :
  well_counted n = true →
  ∀ k, 0 ≤ k →
    findFirstNodeToRender_under n k = rows (children n) !! Z.to_nat k.
Proof.
  induction n as [n IH] using FileTreeNode_forest_ind. intros Hwf k Hk.
  apply well_counted_unfold in Hwf as (_ & _ & Hcs).
  rewrite findFirstNodeToRender_under_eq. unfold findFirstNodeToRender.
  rewrite find_first_rows; [by rewrite Z.sub_0_r|done| |done].
  apply Forall_forall. intros c Hc.
  rewrite Forall_forall in IH. rewrite Forall_forall in Hcs. auto.
Qed.

Lemma findFirstNodeToRender_lookup (roots : list FileTreeNode) (k : Z) :
  Forall (λ c, well_counted c = true) roots → 0 ≤ k →
  findFirstNodeToRender roots k = rows roots !! Z.to_nat k.
Proof.
  intros Hwf Hk. unfold findFirstNodeToRender.
  rewrite find_first_rows; [by rewrite Z.sub_0_r|done| |done].
  eapply Forall_impl; [exact Hwf|]. intros c Hc.
  by apply findFirstNodeToRender_under_rows.
Qed.

End FileTreeFacts.

Section FileTreeProperties.
Local Open Scope Z_scope.

(** X1. With counts that mean what they say, [findFirstNodeToRender]
    returns the row with the given index, counting the rows on screen
    from the top, and nothing from [countShownNodes] on. *)
Theorem findFirstNodeToRender_is_row (roots : list FileTreeNode) (k : Z) :
  Forall (λ c, well_counted c = true) roots → 0 ≤ k →
  findFirstNodeToRender roots k = rows roots !! Z.to_nat k
  ∧ (k < countShownNodes roots → is_Some (findFirstNodeToRender roots k))
  ∧ (countShownNodes roots ≤ k → findFirstNodeToRender roots k = None).
Proof.
  intros Hwf Hk. rewrite findFirstNodeToRender_lookup by done.
  pose proof (rows_length roots Hwf) as Hlen.
  split; [done|split]; intros Hc.
  - apply lookup_lt_is_Some. lia.
  - apply lookup_ge_None. lia.
Qed.

Lemma findFirstNodeToRender_is_row_witness :
  findFirstNodeToRender SampleTree.roots 2
  = rows SampleTree.roots !! Z.to_nat 2
  ∧ (2 < countShownNodes SampleTree.roots
     → is_Some (findFirstNodeToRender SampleTree.roots 2))
  ∧ (countShownNodes SampleTree.roots ≤ 2
     → findFirstNodeToRender SampleTree.roots 2 = None).
Proof.
  apply (findFirstNodeToRender_is_row SampleTree.roots 2).
  - repeat constructor.
  - lia.
Defined.

(** X2. [countShownNodes] is the number of rows on screen. *)
Theorem countShownNodes_counts_rows (roots : list FileTreeNode) :
  Forall (λ c, well_counted c = true) roots →
  countShownNodes roots = Z.of_nat (length (rows roots)).
Proof. intros Hwf. by rewrite rows_length. Qed.

Lemma countShownNodes_counts_rows_witness :
  countShownNodes SampleTree.roots = Z.of_nat (length (rows SampleTree.roots)).
Proof.
  apply (countShownNodes_counts_rows SampleTree.roots). repeat constructor.
Defined.

Lemma find_tracked_none (under : FileTreeNode → Z) (l : list FileTreeNode)
    (skipped : Z) :
  Forall (λ m, containsTrackedNode m = false) l →
  find_tracked under l skipped = -1.
Proof.
  intros Hl. revert skipped. induction Hl as [|m l Hm Hl IH]; intros skipped.
  - reflexivity.
  - simpl. rewrite Hm. apply IH.
Qed.

Lemma find_tracked_skip (under : FileTreeNode → Z) (pre l : list FileTreeNode)
    (skipped : Z) :
  Forall (λ m, containsTrackedNode m = false) pre →
  find_tracked under (pre ++ l) skipped
  = find_tracked under l (skipped + countShownNodes pre).
Proof.
  intros Hpre. revert skipped.
  induction Hpre as [|m pre Hm Hpre IH]; intros skipped.
  - simpl. f_equal. unfold countShownNodes. simpl. lia.
  - simpl. rewrite Hm, IH, countShownNodes_cons. f_equal. lia.
Qed.

Lemma find_tracked_lower (l : list FileTreeNode) (skipped : Z) :
  Forall (λ c, well_counted c = true) l →
  Forall (λ c, -1 ≤ findIndexOfTheTrackedNode_under c) l →
  Exists (λ m, containsTrackedNode m = true) l →
  skipped ≤ find_tracked findIndexOfTheTrackedNode_under l skipped.
Proof.
  intros Hwf. revert skipped.
  induction Hwf as [|c l Hc Hl IH]; intros skipped Hunder Hex.
  - inversion Hex.
  - inversion Hunder as [|? ? Hcu Hlu]; subst. simpl.
    destruct (containsTrackedNode c) eqn:Hcont.
    + destruct (isTracked c); lia.
    + inversion Hex as [? ? Hc'|? ? Hl']; subst; [congruence|].
      apply well_counted_unfold in Hc as (H0 & _).
      specialize (IH (skipped + shownChildrenBelow c) Hlu Hl'). lia.
Qed.

Lemma Forall_or_Exists_tracked (l : list FileTreeNode) :
  Forall (λ m, containsTrackedNode m = false) l
  ∨ Exists (λ m, containsTrackedNode m = true) l.
Proof.
  induction l as [|m l [IH|IH]]; [by left| |by right; right].
  destruct (containsTrackedNode m) eqn:Hm; [right; by left|left; by constructor].
Qed.

Lemma findIndexOfTheTrackedNode_under_lower (n : FileTreeNode) :
  well_counted n = true → -1 ≤ findIndexOfTheTrackedNode_under n.
Proof.
  induction n as [n IH] using FileTreeNode_forest_ind. intros Hwf.
  apply well_counted_unfold in Hwf as (_ & _ & Hcs).
  rewrite findIndexOfTheTrackedNode_under_eq. unfold findIndexOfTheTrackedNode.
  destruct (Forall_or_Exists_tracked (children n)) as [Hno|Hex].
  - by rewrite find_tracked_none.
  - etrans; [|apply find_tracked_lower; [done| |done]]; [lia|].
    rewrite Forall_forall in IH, Hcs. apply Forall_forall. auto.
Qed.

(** X3. [findIndexOfTheTrackedNode] answers -1 exactly when no root
    holds the tracked node, and an index from 0 on otherwise; so
    [_scrollToTrackedNodeIfNeeded] asks for a scroll exactly when some
    root holds the tracked node. *)
Theorem findIndexOfTheTrackedNode_found (nodes : list FileTreeNode)
    (elementHeight : Z) :
  Forall (λ c, well_counted c = true) nodes →
  (findIndexOfTheTrackedNode nodes = -1
   ↔ Forall (λ m, containsTrackedNode m = false) nodes)
  ∧ -1 ≤ findIndexOfTheTrackedNode nodes
  ∧ (_scrollToTrackedNodeIfNeeded nodes elementHeight = None
     ↔ Forall (λ m, containsTrackedNode m = false) nodes).
Proof.
  intros Hwf.
  assert (Hlow : Exists (λ m, containsTrackedNode m = true) nodes →
                 0 ≤ findIndexOfTheTrackedNode nodes).
  { intros Hex. apply find_tracked_lower; [done| |done].
    eapply Forall_impl; [exact Hwf|]. intros c Hc.
    by apply findIndexOfTheTrackedNode_under_lower. }
  assert (Hnone : Forall (λ m, containsTrackedNode m = false) nodes →
                  findIndexOfTheTrackedNode nodes = -1)
    by apply find_tracked_none.
  unfold _scrollToTrackedNodeIfNeeded.
  destruct (Forall_or_Exists_tracked nodes) as [Hno|Hex].
  - rewrite (Hnone Hno). simpl. split; [|split]; [done|lia|done].
  - specialize (Hlow Hex).
    assert (Hnot : ¬ Forall (λ m, containsTrackedNode m = false) nodes).
    { intros Hno. apply Exists_exists in Hex as (m & Hin & Hm).
      rewrite Forall_forall in Hno. specialize (Hno m Hin). congruence. }
    destruct (Z.ltb_spec (findIndexOfTheTrackedNode nodes) 0); [lia|].
    split; [|split]; [split; [lia|done]|lia|split; done].
Qed.

Lemma findIndexOfTheTrackedNode_found_witness :
  (findIndexOfTheTrackedNode SampleTree.roots = -1
   ↔ Forall (λ m, containsTrackedNode m = false) SampleTree.roots)
  ∧ -1 ≤ findIndexOfTheTrackedNode SampleTree.roots
  ∧ (_scrollToTrackedNodeIfNeeded SampleTree.roots 22 = None
     ↔ Forall (λ m, containsTrackedNode m = false) SampleTree.roots).
Proof.
  apply (findIndexOfTheTrackedNode_found SampleTree.roots 22).
  repeat constructor.
Defined.

Lemma find_tracked_row (l : list FileTreeNode) :
  tracked_shown l →
  Forall (λ c, well_counted c = true) l →
  ∀ skipped, ∃ (j : nat) (n : FileTreeNode),
    find_tracked findIndexOfTheTrackedNode_under l skipped
    = skipped + Z.of_nat j
    ∧ rows l !! j = Some n ∧ isTracked n = true.
Proof.
  induction 1 as [pre n post Hpre Hcont Htr Hs
                 |pre n post Hpre Hcont Htr Hs Hsub IH];
    intros Hwf skipped.
  - apply Forall_app in Hwf as [Hwpre Hwn].
    exists (length (rows pre)), n.
    rewrite find_tracked_skip by done. simpl. rewrite Hcont, Htr.
    rewrite rows_length by done. split; [done|]. split; [|done].
    rewrite rows_app, lookup_app_r, Nat.sub_diag by lia.
    rewrite rows_cons, shown_rows_unfold.
    destruct (Z.leb_spec (shownChildrenBelow n) 0); [lia|done].
  - apply Forall_app in Hwf as [Hwpre Hwn].
    inversion Hwn as [|? ? Hn Hpost]; subst.
    apply well_counted_unfold in Hn as (H0 & _ & Hcs).
    destruct (IH Hcs 0) as (j & m & Hj & Hm & Hmt).
    exists (length (rows pre) + S j)%nat, m.
    rewrite find_tracked_skip by done. simpl. rewrite Hcont, Htr.
    rewrite findIndexOfTheTrackedNode_under_eq.
    unfold findIndexOfTheTrackedNode. rewrite Hj.
    rewrite Nat2Z.inj_add, rows_length by done. split; [lia|]. split; [|done].
    rewrite rows_app, lookup_app_r by lia.
    replace (length (rows pre) + S j - length (rows pre))%nat with (S j) by lia.
    rewrite rows_cons, shown_rows_unfold.
    assert (Hlt : (j < length (rows (children n)))%nat)
      by (apply lookup_lt_is_Some; eauto).
    pose proof (rows_length _ Hcs) as Hlen.
    destruct (Z.leb_spec (shownChildrenBelow n) 0); [lia|].
    destruct (Z.eqb_spec (shownChildrenBelow n) 1); [lia|].
    simpl. by rewrite lookup_app_l.
Qed.

(** X4. When the tracked node is on screen, the index
    [findIndexOfTheTrackedNode] gives is the index of its row: looked up
    by [findFirstNodeToRender], it yields a tracked node, and
    [_scrollToTrackedNodeIfNeeded] asks to scroll to that row. *)
Theorem tracked_index_round_trip (roots : list FileTreeNode)
    (elementHeight : Z) :
  Forall (λ c, well_counted c = true) roots →
  tracked_shown roots →
  ∃ n, findFirstNodeToRender roots (findIndexOfTheTrackedNode roots) = Some n
       ∧ isTracked n = true
       ∧ 0 ≤ findIndexOfTheTrackedNode roots < countShownNodes roots
       ∧ _scrollToTrackedNodeIfNeeded roots elementHeight
         = Some (findIndexOfTheTrackedNode roots * elementHeight, elementHeight).
Proof.
  intros Hwf Htr.
  destruct (find_tracked_row roots Htr Hwf 0) as (j & n & Hj & Hn & Hnt).
  fold (findIndexOfTheTrackedNode roots) in Hj.
  assert (Hlt : (j < length (rows roots))%nat)
    by (apply lookup_lt_is_Some; eauto).
  pose proof (rows_length roots Hwf) as Hlen.
  exists n. rewrite findFirstNodeToRender_lookup by (done || lia).
  rewrite Hj. replace (Z.to_nat (0 + Z.of_nat j)) with j by lia.
  split; [done|]. split; [done|]. split; [lia|].
  unfold _scrollToTrackedNodeIfNeeded. rewrite Hj.
  destruct (Z.ltb_spec (0 + Z.of_nat j) 0); [lia|done].
Qed.

Lemma tracked_index_round_trip_witness :
  ∃ n, findFirstNodeToRender SampleTree.roots
         (findIndexOfTheTrackedNode SampleTree.roots) = Some n
       ∧ isTracked n = true
       ∧ 0 ≤ findIndexOfTheTrackedNode SampleTree.roots
           < countShownNodes SampleTree.roots
       ∧ _scrollToTrackedNodeIfNeeded SampleTree.roots 22
         = Some (findIndexOfTheTrackedNode SampleTree.roots * 22, 22).
Proof.
  apply (tracked_index_round_trip SampleTree.roots 22).
  - repeat constructor.
  - apply (tracked_below [] SampleTree.root []); [constructor|done|done|done|].
    apply (tracked_below [] SampleTree.folder [SampleTree.other_file]);
      [constructor|done|done|done|].
    apply (tracked_here [] SampleTree.tracked_file []); [constructor|done|done|].
    simpl. lia.
Defined.

End FileTreeProperties.

Section RenderProperties.
Local Open Scope Z_scope.
Variable findNext : FileTreeNode → option FileTreeNode.

Lemma render_loop_entries (turns : nat) (amountToRender : Z)
    (node : option FileTreeNode) (key : Z) (chosenMeasured : bool)
    (visibleChildren : list Entry) :
  render_loop findNext turns amountToRender node key chosenMeasured visibleChildren
  = (visibleChildren ++
     entries amountToRender
       (next_nodes findNext
          (Nat.min turns
             (Z.to_nat (amountToRender - Z.of_nat (length visibleChildren))))
          node)
       key chosenMeasured)%list.
Proof.
  revert node key chosenMeasured visibleChildren.
  induction turns as [|turns IH]; intros node key chosen vis.
  - simpl. by rewrite app_nil_r.
  - simpl. destruct node as [n|].
    + destruct (Z.ltb_spec (Z.of_nat (length vis)) amountToRender) as [Hlt|Hge].
      * rewrite IH, length_app. simpl length.
        replace (Z.to_nat (amountToRender - Z.of_nat (length vis)))
          with (S (Z.to_nat (amountToRender - Z.of_nat (length vis + 1)%nat)))
          by lia.
        simpl. by rewrite <- app_assoc.
      * replace (Z.to_nat (amountToRender - Z.of_nat (length vis))) with O by lia.
        simpl. by rewrite app_nil_r.
    + destruct (Z.to_nat _); simpl; by rewrite app_nil_r.
Qed.

Lemma next_nodes_length (count : nat) (node : option FileTreeNode) :
  (length (next_nodes findNext count node) ≤ count)%nat.
Proof.
  revert node. induction count as [|count IH]; intros [n|]; simpl; try lia.
  specialize (IH (findNext n)). lia.
Qed.

Lemma entries_nodes (a : Z) (ns : list FileTreeNode) (key : Z) (chosen : bool) :
  map entry_node (entries a ns key chosen) = ns.
Proof.
  revert key chosen. induction ns as [|n ns IH]; intros key chosen; simpl;
    [done | by rewrite IH].
Qed.

Lemma entries_length (a : Z) (ns : list FileTreeNode) (key : Z) (chosen : bool) :
  length (entries a ns key chosen) = length ns.
Proof.
  revert key chosen. induction ns as [|n ns IH]; intros key chosen; simpl;
    [done | by rewrite IH].
Qed.

Lemma entries_keys (a : Z) (ns : list FileTreeNode) (key : Z) (chosen : bool) :
  0 ≤ key < a →
  map entry_key (entries a ns key chosen)
  = map (λ j : nat, (key + Z.of_nat j) mod a) (seq 0 (length ns)).
Proof.
  revert key chosen. induction ns as [|n ns IH]; intros key chosen Hkey;
    [done|].
  simpl. f_equal.
  - rewrite Z.add_0_r, Z.mod_small; lia.
  - rewrite Z.rem_mod_nonneg by lia.
    rewrite IH by (apply Z.mod_pos_bound; lia).
    rewrite <- seq_shift, map_map. apply map_ext. intros j.
    rewrite Zplus_mod_idemp_l. f_equal. lia.
Qed.

Lemma keys_distinct (a key : Z) (len : nat) :
  Z.of_nat len ≤ a →
  NoDup (map (λ j : nat, (key + Z.of_nat j) mod a) (seq 0 len)).
Proof.
  intros Hlen. apply (NoDup_fmap_2_strong _); [|apply NoDup_seq].
  intros i j Hi Hj Heq.
  apply elem_of_seq in Hi, Hj.
  assert (Ha : 0 < a) by lia.
  rewrite (Z.mod_eq (key + Z.of_nat i) a), (Z.mod_eq (key + Z.of_nat j) a)
    in Heq by lia.
  set (q1 := (key + Z.of_nat i) / a) in *.
  set (q2 := (key + Z.of_nat j) / a) in *.
  assert (q1 = q2) by nia. subst q1. nia.
Qed.

Lemma entries_measured (a : Z) (ns : list FileTreeNode) (key : Z)
    (chosen : bool) (i : nat) (e : Entry) :
  entries a ns key chosen !! i = Some e →
  entry_measured e
  = negb (isRoot (entry_node e)) && negb chosen && forallb isRoot (take i ns).
Proof.
  revert key chosen i. induction ns as [|n ns IH]; intros key chosen i; [done|].
  destruct i as [|i]; simpl.
  - intros [= <-]. simpl. by rewrite andb_true_r.
  - intros He. rewrite (IH _ _ _ He).
    destruct (isRoot n), chosen; simpl;
      by rewrite ?andb_true_r, ?andb_false_r.
Qed.

(** X18. The loop of [_renderChildren] is over within [amountToRender]
    turns: allowing it more turns changes nothing. *)
Theorem render_loop_turns_enough (amountToRender : Z) (more : nat)
    (node : option FileTreeNode) (key : Z) (chosenMeasured : bool)
    (visibleChildren : list Entry) :
  render_loop findNext (Z.to_nat amountToRender + more) amountToRender node key
    chosenMeasured visibleChildren
  = render_loop findNext (Z.to_nat amountToRender) amountToRender node key
      chosenMeasured visibleChildren.
Proof.
  rewrite !render_loop_entries. do 3 f_equal. lia.
Qed.

(** X5. [_renderChildren] renders at most [elementsInView + 30] entries,
    and their keys, taken modulo that number, are all different. *)
Theorem _renderChildren_keys (roots : list FileTreeNode)
    (elementHeight elementsInView scrolledRows top bottom : Z)
    (visibleChildren : list Entry) :
  _renderChildren findNext roots elementHeight elementsInView scrolledRows
  = Rows top visibleChildren bottom →
  Z.of_nat (length visibleChildren)
  ≤ Z.max 0 (elementsInView + 2 * BUFFER_ELEMENTS)
  ∧ NoDup (map entry_key visibleChildren)
  ∧ Forall (λ e, 0 ≤ entry_key e < elementsInView + 2 * BUFFER_ELEMENTS)
      visibleChildren.
Proof.
  unfold _renderChildren.
  destruct (countShownNodes roots =? 0); [done|].
  set (a := elementsInView + 2 * BUFFER_ELEMENTS).
  set (first := firstToRender _ _ _).
  rewrite render_loop_entries. simpl length. rewrite app_nil_l.
  set (ns := next_nodes _ _ _).
  intros [= _ <- _].
  assert (Hns : (length ns ≤ Z.to_nat a)%nat).
  { unfold ns. etrans; [apply next_nodes_length|]. lia. }
  rewrite entries_length.
  split; [lia|].
  destruct (Z.le_gt_cases a 0) as [Ha|Ha].
  { assert (ns = []) as -> by (destruct ns; [done|simpl in Hns; lia]).
    simpl. split; constructor. }
  assert (Hkey : 0 ≤ Z.rem first a < a).
  { assert (0 ≤ first) by (unfold first, firstToRender; lia).
    rewrite Z.rem_mod_nonneg by lia. apply Z.mod_pos_bound. lia. }
  rewrite entries_keys by done. split.
  - apply keys_distinct. lia.
  - apply Forall_forall. intros e He.
    assert (Hin : entry_key e ∈ map entry_key
                    (entries a ns (Z.rem first a) false))
      by (apply list_elem_of_fmap; eauto).
    rewrite entries_keys in Hin by done.
    apply list_elem_of_fmap in Hin as (j & -> & _).
    apply Z.mod_pos_bound. lia.
Qed.

(** X6. Among the rendered entries, the one given the ["measured"] ref
    is the first that is not a root: an entry is measured exactly when
    its node is not a root and all entries above it are roots, so that at
    most one entry is measured. *)
Theorem _renderChildren_measured (roots : list FileTreeNode)
    (elementHeight elementsInView scrolledRows top bottom : Z)
    (visibleChildren : list Entry) :
  _renderChildren findNext roots elementHeight elementsInView scrolledRows
  = Rows top visibleChildren bottom →
  (∀ i e, visibleChildren !! i = Some e →
          entry_measured e
          = negb (isRoot (entry_node e))
            && forallb (λ e', isRoot (entry_node e')) (take i visibleChildren))
  ∧ (∀ i j e e', visibleChildren !! i = Some e →
                 visibleChildren !! j = Some e' →
                 entry_measured e = true → entry_measured e' = true → i = j).
Proof.
  unfold _renderChildren.
  destruct (countShownNodes roots =? 0); [done|].
  set (a := elementsInView + 2 * BUFFER_ELEMENTS).
  set (first := firstToRender _ _ _).
  rewrite render_loop_entries. simpl length. rewrite app_nil_l.
  set (ns := next_nodes _ _ _). set (key := Z.rem first a).
  intros [= _ <- _].
  assert (Hspec : ∀ i e, entries a ns key false !! i = Some e →
            entry_measured e
            = negb (isRoot (entry_node e))
              && forallb (λ e', isRoot (entry_node e'))
                   (take i (entries a ns key false))).
  { intros i e He. rewrite (entries_measured _ _ _ _ _ _ He). simpl.
    rewrite andb_true_r. f_equal.
    rewrite <- (entries_nodes a ns key false) at 1.
    rewrite firstn_map. generalize (take i (entries a ns key false)).
    intros l. induction l as [|x l IH]; simpl; [done | by rewrite IH]. }
  split; [exact Hspec|].
  assert (Hlt : ∀ i j e e', (i < j)%nat →
            entries a ns key false !! i = Some e →
            entries a ns key false !! j = Some e' →
            entry_measured e = true → entry_measured e' = true → False).
  { intros i j e e' Hij Hi Hj Hm Hm'.
    rewrite (Hspec _ _ Hi) in Hm. rewrite (Hspec _ _ Hj) in Hm'.
    apply andb_true_iff in Hm as [Hroot _].
    apply andb_true_iff in Hm' as [_ Hall].
    rewrite forallb_forall in Hall.
    assert (Hin : In e (take j (entries a ns key false))).
    { apply list_elem_of_In, list_elem_of_lookup. exists i.
      by rewrite lookup_take_lt. }
    specialize (Hall e Hin). by rewrite Hall in Hroot. }
  intros i j e e' Hi Hj Hm Hm'.
  destruct (Nat.lt_trichotomy i j) as [Hij|[Hij|Hij]]; [|done|];
    exfalso; eauto.
Qed.

Lemma next_nodes_rows (roots : list FileTreeNode) (count i : nat) :
  follows_rows findNext roots →
  next_nodes findNext count (rows roots !! i)
  = take count (drop i (rows roots)).
Proof.
  intros Hnext. revert i. induction count as [|count IH]; intros i.
  - by destruct (rows roots !! i).
  - destruct (rows roots !! i) as [n|] eqn:Hn; simpl.
    + rewrite (Hnext _ _ Hn), IH. by rewrite (drop_S _ _ _ Hn).
    + apply lookup_ge_None in Hn. by rewrite drop_ge.
Qed.


End RenderProperties.


Lemma _renderChildren_keys_witness :
  ∃ top bottom visibleChildren,
    _renderChildren SampleTree.findNext SampleTree.roots 22 2 40
    = Rows top visibleChildren bottom
    ∧ (Z.of_nat (length visibleChildren) ≤ Z.max 0 (2 + 2 * BUFFER_ELEMENTS))%Z
    ∧ NoDup (map entry_key visibleChildren)
    ∧ Forall (λ e, (0 ≤ entry_key e < 2 + 2 * BUFFER_ELEMENTS)%Z) visibleChildren.
Proof.
  eexists _, _, _. split; [reflexivity|].
  apply (_renderChildren_keys SampleTree.findNext SampleTree.roots 22 2 40 _ _ _
           eq_refl).
Defined.

Lemma _renderChildren_measured_witness :
  ∃ top bottom visibleChildren,
    _renderChildren SampleTree.findNext SampleTree.roots 22 2 0
    = Rows top visibleChildren bottom
    ∧ (∀ i e, visibleChildren !! i = Some e →
              entry_measured e
              = negb (isRoot (entry_node e))
                && forallb (λ e', isRoot (entry_node e')) (take i visibleChildren))
    ∧ (∀ i j e e', visibleChildren !! i = Some e →
                   visibleChildren !! j = Some e' →
                   entry_measured e = true → entry_measured e' = true → i = j).
Proof.
  eexists _, _, _. split; [reflexivity|].
  apply (_renderChildren_measured SampleTree.findNext SampleTree.roots 22 2 0 _ _ _
           eq_refl).
Defined.

(** ** What a write-back touches *)

Lemma mkdirp_from_lookup (rest : list string) (f f' : Fs.FS) (cur : Path) :
  Fs.mkdirp_from f cur rest = Ok f' →
  (∀ q n, f !! q = Some n → f' !! q = Some n)
  ∧ (∀ q, f !! q = None →
          f' !! q = None
          ∨ (f' !! q = Some (Fs.Dir true)
             ∧ ∃ k, (1 ≤ k ≤ length rest)%nat ∧ q = (cur ++ take k rest)%list)).
Proof.
  revert f cur. induction rest as [|c rest IH]; intros f cur Hmk; simpl in Hmk.
  - injection Hmk as <-. split; [done | by left].
  - destruct (f !! cur) as [[? ?|[|]]|] eqn:Hcur; try done.
    unfold path_join in Hmk.
    assert (Hshift : ∀ k, ((cur ++ [c]) ++ take k rest
                           = cur ++ take (S k) (c :: rest))%list)
      by (intros k; by rewrite <- app_assoc).
    destruct (f !! (cur ++ [c])%list) as [[? ?|?]|] eqn:Hnext; try done.
    + destruct (IH _ _ Hmk) as [Hkeep Hnew]. split; [done|].
      intros q Hq. destruct (Hnew q Hq) as [?|[? (k & Hk & ->)]]; [by left|].
      right. split; [done|]. exists (S k). rewrite Hshift. simpl. split; [lia|done].
    + destruct (IH _ _ Hmk) as [Hkeep Hnew]. split.
      * intros q n Hq. apply Hkeep. rewrite lookup_insert_ne; [done|].
        intros <-. congruence.
      * intros q Hq. destruct (decide (q = (cur ++ [c])%list)) as [->|Hne].
        -- right. split.
           ++ apply Hkeep, lookup_insert_eq.
           ++ exists 1%nat. simpl. rewrite take_0. split; [lia|done].
        -- destruct (Hnew q) as [?|[? (k & Hk & ->)]];
             [by rewrite lookup_insert_ne|by left|].
           right. split; [done|]. exists (S k). rewrite Hshift. simpl.
           split; [lia|done].
Qed.

Lemma mkdirp_keeps (f f' : Fs.FS) (dir q : Path) (n : Fs.Node) :
  Fs.mkdirp f dir = Ok f' → f !! q = Some n → f' !! q = Some n.
Proof. intros Hmk. by apply (mkdirp_from_lookup dir f f' []). Qed.

Lemma mkdirp_beside (f f' : Fs.FS) (filename : Path) :
  Fs.mkdirp f (path_dirname filename) = Ok f' →
  f' !! filename = f !! filename.
Proof.
  intros Hmk. destruct (f !! filename) as [n|] eqn:Hf.
  - by apply (mkdirp_keeps f f' _ _ _ Hmk).
  - destruct (mkdirp_from_lookup _ _ _ _ Hmk) as [_ Hnew].
    destruct (Hnew filename Hf) as [?|[_ (k & Hk & Heq)]]; [done|].
    exfalso. simpl in Heq. apply (f_equal length) in Heq.
    unfold path_dirname in *. rewrite length_take, length_removelast in *. lia.
Qed.

Lemma writeFile_ok (f f' : Fs.FS) (p : Path) (data : string) :
  Fs.writeFile f p data = Ok f' →
  f' = <[p := Fs.File data true]> f
  ∧ Fs.resolve_parent f "open" p = Ok tt
  ∧ (f !! p = None ∨ ∃ c, f !! p = Some (Fs.File c true)).
Proof.
  unfold Fs.writeFile.
  destruct (Fs.resolve_parent f "open" p) as [[]|]; [|done].
  destruct (f !! p) as [[c [|]|?]|]; try done; intros [= <-]; eauto.
Qed.

Lemma stat_after_write (f f' : Fs.FS) (p : Path) (data sc : string) :
  Fs.writeFile f p data = Ok f' → Fs.stat f' sc p = Ok (Fs.File data true).
Proof.
  intros Hw. apply writeFile_ok in Hw as (-> & Hp & _).
  apply stat_ok. split; [|apply lookup_insert_eq].
  apply resolve_parent_ok. intros k Hk. rewrite resolve_parent_ok in Hp.
  rewrite lookup_insert_ne by (apply not_eq_sym, take_lt_ne; done). auto.
Qed.

Lemma rename_ok (f f' : Fs.FS) (old new : Path) :
  Fs.rename f old new = Ok f' →
  ∃ c a, f !! old = Some (Fs.File c a)
         ∧ f' = <[new := Fs.File c a]> (delete old f)
         ∧ Fs.resolve_parent f "rename" old = Ok tt
         ∧ Fs.resolve_parent f "rename" new = Ok tt
         ∧ ∀ b, f !! new ≠ Some (Fs.Dir b).
Proof.
  unfold Fs.rename.
  destruct (Fs.stat f "rename" old) as [[c a|?]|] eqn:Hs; try done.
  apply stat_ok in Hs as [Hp Hold].
  destruct (Fs.resolve_parent f "rename" new) as [[]|]; [|done].
  destruct (f !! new) as [[? ?|?]|] eqn:Hnew; try done;
    intros [= <-]; exists c, a; repeat split; done.
Qed.

Lemma unlink_ok (f f' : Fs.FS) (p : Path) :
  Fs.unlink f p = Ok f' →
  f' = delete p f ∧ ∃ c a, f !! p = Some (Fs.File c a).
Proof.
  unfold Fs.unlink.
  destruct (Fs.stat f "unlink" p) as [[c a|?]|] eqn:Hs; try done.
  apply stat_ok in Hs as [_ Hp]. intros [= <-]. eauto.
Qed.

Lemma same_parent (dir : Path) (x y : string) (f : Fs.FS) (sc sc' : string) :
  Fs.resolve_parent f sc (path_join dir x) = Ok tt →
  Fs.resolve_parent f sc' (path_join dir y) = Ok tt.
Proof.
  rewrite !resolve_parent_ok. unfold path_join. intros Hx k Hk.
  rewrite length_app in Hk. simpl in Hk.
  specialize (Hx k). rewrite length_app in Hx. simpl in Hx.
  rewrite take_app_le in * by lia. apply Hx. lia.
Qed.

Lemma path_join_dirname (filename : Path) :
  filename ≠ [] →
  ∃ name, filename = path_join (path_dirname filename) name.
Proof.
  intros Hne. destruct (exists_last Hne) as (dir & name & ->).
  exists name. unfold path_join, path_dirname. by rewrite removelast_last.
Qed.

Section WritebackFrame.
Context `{Runtime}.

Lemma writeback_frame_refl (t fn : Path) (src : string) (f : Fs.FS) :
  writeback_frame t fn src f f.
Proof. repeat split; auto. Qed.

(** Each turn of the event loop keeps the stage and the frame. *)
Lemma tick_writeback (filename : Path) (src : string) (tmp : Path)
    (f0 : Fs.FS) (w : World) :
  let basedir := path_dirname filename in
  writeback_stage basedir tmp filename src w →
  writeback_frame tmp filename src f0 (fs w) →
  writeback_stage basedir tmp filename src (tick w)
  ∧ writeback_frame tmp filename src f0 (fs (tick w)).
Proof.
  intros basedir Hstage (Hdir & Hother & Hfile).
  unfold tick.
  destruct Hstage as [Hq|[Hq|[[Hq Htmp]|[[Hq Hne]|Hq]]]]; rewrite Hq; simpl.
  - (* mkdirp *)
    destruct (Fs.mkdirp (fs w) basedir) as [f1|e] eqn:Hmk; simpl.
    + split; [right; by left|]. split; [|split].
      * intros q a Hqa. eapply mkdirp_keeps; eauto.
      * intros q n H1 H2 Hqn. eapply mkdirp_keeps; eauto.
      * rewrite (mkdirp_beside _ _ _ Hmk). done.
    + split; [by repeat right | done].
  - (* writeFile *)
    destruct (Fs.writeFile (fs w) tmp src) as [f2|e] eqn:Hwr; simpl.
    + pose proof (λ sc, stat_after_write _ _ _ _ sc Hwr) as Hst.
      apply writeFile_ok in Hwr as (-> & _ & Hfree).
      split; [right; right; left; split; [done | exact Hst]|].
      split; [|split].
      * intros q a Hqa. specialize (Hdir _ _ Hqa).
        rewrite lookup_insert_ne; [done|].
        intros <-. destruct Hfree as [?|[? ?]]; congruence.
      * intros q n H1 H2 Hqn. rewrite lookup_insert_ne by done. auto.
      * destruct (decide (tmp = filename)) as [->|Hne].
        -- right. apply lookup_insert_eq.
        -- by rewrite lookup_insert_ne.
    + split; [by repeat right | done].
  - (* rename *)
    destruct (Fs.rename (fs w) tmp filename) as [f3|e] eqn:Hrn; simpl.
    + apply rename_ok in Hrn as (c & a & Hold & -> & _ & _ & Hnodir).
      pose proof (Htmp "rename") as Hl. apply stat_ok in Hl as [_ Hl].
      rewrite Hl in Hold. injection Hold as <- <-.
      split; [by repeat right|]. split; [|split].
      * intros q a Hqa. specialize (Hdir _ _ Hqa).
        rewrite lookup_insert_ne by (intros <-; by apply Hnodir in Hdir).
        rewrite lookup_delete_ne; [done|]. intros <-. congruence.
      * intros q n H1 H2 Hqn.
        rewrite lookup_insert_ne, lookup_delete_ne by done. auto.
      * right. apply lookup_insert_eq.
    + split; [|done]. right; right; right; left. split; [done|].
      intros ->. unfold Fs.rename in Hrn. rewrite Htmp in Hrn.
      pose proof (Htmp "rename") as Hl. apply stat_ok in Hl as [Hp Hl].
      by rewrite Hp, Hl in Hrn.
  - (* unlink *)
    destruct (Fs.unlink (fs w) tmp) as [f3|e] eqn:Hun; simpl.
    + apply unlink_ok in Hun as (-> & c & a & Hfile').
      split; [by repeat right|]. split; [|split].
      * intros q a' Hqa. specialize (Hdir _ _ Hqa).
        rewrite lookup_delete_ne; [done|]. intros <-. congruence.
      * intros q n H1 H2 Hqn. rewrite lookup_delete_ne by done. auto.
      * by rewrite lookup_delete_ne.
    + split; [by repeat right | done].
  - split; [by repeat right | done].
Qed.

Lemma iter_tick_writeback (filename : Path) (src : string) (tmp : Path)
    (w : World) (k : nat) :
  let basedir := path_dirname filename in
  writeback_stage basedir tmp filename src w →
  writeback_stage basedir tmp filename src (Nat.iter k tick w)
  ∧ writeback_frame tmp filename src (fs w) (fs (Nat.iter k tick w)).
Proof.
  intros basedir Hstage. induction k as [|k [IHs IHf]]; simpl.
  - split; [done | apply writeback_frame_refl].
  - by apply tick_writeback.
Qed.

End WritebackFrame.


Lemma frame_readFileSync (t fn : Path) (src : string) (f f' : Fs.FS)
    (q : Path) (c : string) :
  writeback_frame t fn src f f' →
  q ≠ fn → q ≠ t →
  Fs.readFileSync f q = Ok c → Fs.readFileSync f' q = Ok c.
Proof.
  intros (Hdir & Hother & _) Hfn Ht Hread.
  unfold Fs.readFileSync in Hread.
  destruct (Fs.stat f "open" q) as [[c' [|]|?]|] eqn:Hs; try done.
  injection Hread as ->. apply stat_ok in Hs as [Hp Hl].
  apply readFileSync_stat, stat_ok. split; [|by apply Hother].
  apply resolve_parent_ok. rewrite resolve_parent_ok in Hp.
  intros k Hk. apply Hdir. auto.
Qed.

Lemma cacheWriteAsync_stage `{Runtime} (filename : Path) (src : string) (w : World) :
  pending w = [] →
  writeback_stage (path_dirname filename)
    (path_join (path_dirname filename) ("." ++ uuid_v4 (uuid_counter w)))
    filename src (cacheWriteAsync filename src w).
Proof. intros Hidle. left. unfold cacheWriteAsync. simpl. by rewrite Hidle. Qed.



(** X9. A write-back leaves every other file as it is: a file that can
    be read, and is neither the final path nor the temporary file, reads
    the same after any number of turns; and no directory is removed or
    changed. *)
Theorem writeback_leaves_others `{Runtime} (filename : Path) (src : string)
    (w : World) (turns : nat) (q : Path) (c : string) :
  pending w = [] →
  Fs.readFileSync (fs w) q = Ok c →
  q ≠ filename →
  q ≠ path_join (path_dirname filename) ("." ++ uuid_v4 (uuid_counter w)) →
  let w' := Nat.iter turns tick (cacheWriteAsync filename src w) in
  Fs.readFileSync (fs w') q = Ok c
  ∧ ∀ d a, fs w !! d = Some (Fs.Dir a) → fs w' !! d = Some (Fs.Dir a).
Proof.
  intros Hidle Hread Hfn Htmp w'.
  destruct (iter_tick_writeback filename src _ _ turns
              (cacheWriteAsync_stage filename src w Hidle))
    as [_ Hframe].
  split.
  - eapply frame_readFileSync; eauto.
  - by destruct Hframe as (Hdir & _).
Qed.

Lemma writeback_leaves_others_witness :
  Fs.readFileSync
    (fs (Nat.iter 4 tick
           (cacheWriteAsync Toy.good_cache_file Scenarios.good_out
              (world (Toy.boot Toy.disk)))))
    ["app"; "lib"; "NodeTranspiler.js"] = Ok "driver"
  ∧ ∀ d a, fs (world (Toy.boot Toy.disk)) !! d = Some (Fs.Dir a) →
           fs (Nat.iter 4 tick
                 (cacheWriteAsync Toy.good_cache_file Scenarios.good_out
                    (world (Toy.boot Toy.disk)))) !! d = Some (Fs.Dir a).
Proof.
  apply (writeback_leaves_others Toy.good_cache_file Scenarios.good_out
           (world (Toy.boot Toy.disk)) 4 ["app"; "lib"; "NodeTranspiler.js"]
           "driver").
  - by_evaluation.
  - by_evaluation.
  - vm_compute. discriminate.
  - vm_compute. discriminate.
Defined.



(** X11. The cache file of a source is
    [<tmpdir>/nuclide-node-transpiler/<config digest>/<sha1 of the
    source>.js]; the directory is fixed by the first call, and later
    calls, for any source, stay in it without reading the digest files
    again. *)
Theorem cache_path_layout `{Runtime} (src : string) (st st0 : State) (p : Path) :
  _cacheDir (this st) = None → memo_digest (this st) = None →
  _getCacheFilename src st = (Ok p, st0) →
  ∃ cs,
    read_all (fs (world st)) digest_files = Ok cs
    ∧ p = (os_tmpdir ++
           ["nuclide-node-transpiler";
            sha1_hex (digest_stream (_babelVersion (this st))
                        (JSON_stringify BABEL_OPTIONS) cs);
            (sha1_hex src ++ ".js")%string])%list
    ∧ ∀ src' w',
        _getCacheFilename src' (with_world st0 w')
        = (Ok (path_join (path_dirname p) (sha1_hex src' ++ ".js")),
           with_world st0 w').
Proof.
  intros Hdir Hmemo. rewrite _getCacheFilename_eq, Hdir, getConfigDigest_eq, Hmemo.
  destruct (read_all (fs (world st)) digest_files) as [cs|e]; [|done].
  cbv zeta. intros [= <- <-]. exists cs. split; [done|]. split.
  - unfold cache_dir_of, path_join. by rewrite <- !app_assoc.
  - intros src' w'. rewrite _getCacheFilename_eq. simpl.
    unfold path_dirname, path_join. by rewrite removelast_last.
Qed.

Lemma cache_path_layout_witness :
  ∃ cs,
    read_all (fs (world (Toy.boot Toy.disk))) digest_files = Ok cs
    ∧ Toy.good_cache_file
      = (os_tmpdir ++
         ["nuclide-node-transpiler";
          sha1_hex (digest_stream (_babelVersion (this (Toy.boot Toy.disk)))
                      (JSON_stringify BABEL_OPTIONS) cs);
          (sha1_hex Toy.good_src ++ ".js")%string])%list
    ∧ ∀ src' w',
        _getCacheFilename src'
          (with_world (snd (_getCacheFilename Toy.good_src (Toy.boot Toy.disk))) w')
        = (Ok (path_join (path_dirname Toy.good_cache_file) (sha1_hex src' ++ ".js")),
           with_world (snd (_getCacheFilename Toy.good_src (Toy.boot Toy.disk))) w').
Proof.
  apply (cache_path_layout Toy.good_src (Toy.boot Toy.disk)).
  - by_evaluation.
  - by_evaluation.
  - apply result_pair. by_evaluation.
Defined.

(** X12. When the digest has not been computed yet and a digest file
    cannot be read, [transformWithCache] throws the read error and does
    nothing else: no lookup, no engine call, nothing stored, so that a
    later call starts afresh. *)
Theorem transformWithCache_digest_failure `{Runtime} (src filename : string)
    (st : State) (p : Path) (e : Error) :
  _cacheDir (this st) = None → memo_digest (this st) = None →
  In p digest_files →
  Fs.readFileSync (fs (world st)) p = Throw e →
  ∃ p' e', In p' digest_files
           ∧ Fs.readFileSync (fs (world st)) p' = Throw e'
           ∧ transformWithCache src filename st = (Throw e', st).
Proof.
  intros Hdir Hmemo Hin Hp.
  destruct (read_all_throw _ _ _ _ Hin Hp) as (p' & e' & Hin' & Hp' & Hall).
  exists p', e'. split; [done|]. split; [done|].
  by rewrite transformWithCache_eq, _getCacheFilename_eq, Hdir,
    getConfigDigest_eq, Hmemo, Hall.
Qed.

Lemma transformWithCache_digest_failure_witness :
  ∃ p' e', In p' digest_files
           ∧ Fs.readFileSync (fs (world (Toy.boot ToyDisks.disk_locked))) p'
             = Throw e'
           ∧ transformWithCache Toy.good_src "a.js" (Toy.boot ToyDisks.disk_locked)
             = (Throw e', Toy.boot ToyDisks.disk_locked).
Proof.
  apply (transformWithCache_digest_failure Toy.good_src "a.js"
           (Toy.boot ToyDisks.disk_locked)
           ["app"; "lib"; "NodeTranspiler.js"]
           (FsError EACCES "open" ["app"; "lib"; "NodeTranspiler.js"])).
  - by_evaluation.
  - by_evaluation.
  - left. by_evaluation.
  - by_evaluation.
Defined.


Lemma read_all_frame (f f' : Fs.FS) (files : list Path) (cs : list string) :
  read_all f files = Ok cs →
  (∀ q c, In q files → Fs.readFileSync f q = Ok c → Fs.readFileSync f' q = Ok c) →
  read_all f' files = Ok cs.
Proof.
  revert cs. induction files as [|q files IH]; intros cs Hall Hkeep;
    simpl in *; [done|].
  destruct (Fs.readFileSync f q) as [c|] eqn:Hq; [|done].
  rewrite (Hkeep q c) by auto.
  destruct (read_all f files) as [cs'|]; [|done].
  rewrite (IH cs') by auto. done.
Qed.

(** A write-back that reports nothing has put the output in place. *)
Lemma writeback_quiet_entry `{Runtime} (p : Path) (out : string) (w : World)
    (sc : string) :
  pending w = [] →
  console (run_event_loop (cacheWriteAsync p out w)) = console w →
  Fs.stat (fs (run_event_loop (cacheWriteAsync p out w))) sc p
  = Ok (Fs.File out true).
Proof.
  intros Hidle. unfold cacheWriteAsync. simpl.
  rewrite run_event_loop_writeback by done.
  set (tmp := path_join (path_dirname p) _).
  unfold writeback. simpl.
  destruct (Fs.mkdirp (fs w) (path_dirname p)) as [f1|e];
    [|intros Hq; by apply snoc_ne in Hq].
  destruct (Fs.writeFile f1 tmp out) as [f2|e] eqn:Hwr;
    [|intros Hq; by apply snoc_ne in Hq].
  destruct (Fs.rename f2 tmp p) as [f3|e] eqn:Hrn.
  - intros _. simpl. eapply write_then_rename; eauto.
  - destruct (Fs.unlink f2 tmp); intros Hq; by apply snoc_ne in Hq.
Qed.

Lemma run_event_loop_cacheWriteAsync `{Runtime} (p : Path) (out : string)
    (w : World) :
  pending w = [] →
  run_event_loop (cacheWriteAsync p out w)
  = Nat.iter 4 tick (cacheWriteAsync p out w).
Proof.
  intros Hidle. unfold run_event_loop, cacheWriteAsync. simpl.
  by rewrite Hidle.
Qed.

(** X13. What one process has cached, another finds: after a call by a
    newly built transpiler whose write-back, if any, ended without a
    report, a second newly built transpiler of the same version returns
    the same output from the cache file, without invoking the engine or
    scheduling anything; provided no digest file lies in a cache
    directory. *)
Theorem transformWithCache_second_process `{Runtime}
    (src filename filename' out : string) (st st1 : State)
    (t' : NodeTranspiler) :
  pending (world st) = [] →
  _cacheDir (this st) = None → memo_digest (this st) = None →
  _cacheDir t' = None → memo_digest t' = None →
  _babelVersion t' = _babelVersion (this st) →
  (∀ q digest name, In q digest_files →
                    q ≠ path_join (cache_dir_of digest) name) →
  transformWithCache src filename st = (Ok out, st1) →
  console (world (settle st1)) = console (world st1) →
  ∃ st2,
    transformWithCache src filename'
      {| this := t'; world := world (settle st1) |} = (Ok out, st2)
    ∧ world st2 = world (settle st1).
Proof.
  intros Hidle Hdir Hmemo Hdir' Hmemo' Hver Hout Hrun Hquiet.
  rewrite transformWithCache_eq, _getCacheFilename_eq, Hdir,
    getConfigDigest_eq, Hmemo in Hrun.
  destruct (read_all (fs (world st)) digest_files) as [cs|e] eqn:Hcs; [|done].
  cbv zeta in Hrun. cbn [world this] in Hrun.
  set (d := sha1_hex (digest_stream (_babelVersion (this st))
                        (JSON_stringify BABEL_OPTIONS) cs)) in *.
  set (p := path_join (cache_dir_of d) (sha1_hex src ++ ".js")) in *.
  assert (Hsecond : ∀ w',
            read_all (fs w') digest_files = Ok cs →
            (∀ sc, Fs.stat (fs w') sc p = Ok (Fs.File out true)) →
            ∃ st2, transformWithCache src filename'
                     {| this := t'; world := w' |} = (Ok out, st2)
                   ∧ world st2 = w').
  { intros w' Hcs' Hst.
    rewrite transformWithCache_eq, _getCacheFilename_eq. cbn [this world].
    rewrite Hdir', getConfigDigest_eq. cbn [this world].
    rewrite Hmemo', Hcs', Hver. cbv zeta. cbn [world this]. fold d. fold p.
    unfold Fs.existsSync. rewrite Hst.
    rewrite (readFileSync_stat _ _ _ (Hst _)). eauto. }
  revert Hrun. destruct (Fs.existsSync (fs (world st)) p) eqn:Hex; intros Hrun.
  - injection Hrun as Hread <-.
    unfold settle. cbn [world this].
    rewrite run_event_loop_idle by done.
    apply Hsecond; [done|]. intros sc.
    unfold Fs.readFileSync in Hread.
    destruct (Fs.stat (fs (world st)) "open" p) as [[c [|]|?]|] eqn:Hs;
      try done.
    injection Hread as ->. by apply (stat_syscall _ "open").
  - rewrite transform_eq in Hrun. cbn [this world] in Hrun.
    destruct (engine_of _ src BABEL_OPTIONS) as [out'|e]; [|done].
    cbv zeta in Hrun. injection Hrun as -> <-.
    unfold settle, with_world in *. cbn [world this] in *.
    set (w := count_babel_call (world st)) in *.
    assert (Hw : pending w = []) by done.
    assert (Hquiet' : console (run_event_loop (cacheWriteAsync p out w))
                      = console w) by (by rewrite Hquiet).
    apply Hsecond.
    + rewrite run_event_loop_cacheWriteAsync by done.
      destruct (iter_tick_writeback p out _ _ 4
                  (cacheWriteAsync_stage p out w Hw)) as [_ Hframe].
      apply (read_all_frame (fs (world st))); [done|].
      intros q c Hq Hread.
      eapply frame_readFileSync; [exact Hframe| | |exact Hread].
      * apply Hout. done.
      * unfold p at 1. unfold path_dirname, path_join at 2.
        rewrite removelast_last. apply Hout. done.
    + intros sc. by apply writeback_quiet_entry.
Qed.

Lemma transformWithCache_second_process_witness :
  ∃ st2,
    transformWithCache Toy.good_src "b.js"
      {| this := this (Toy.boot Toy.disk);
         world := world (settle (snd (transformWithCache Toy.good_src "a.js"
                                        (Toy.boot Toy.disk)))) |}
    = (Ok Scenarios.good_out, st2)
    ∧ world st2
      = world (settle (snd (transformWithCache Toy.good_src "a.js"
                              (Toy.boot Toy.disk)))).
Proof.
  apply (transformWithCache_second_process Toy.good_src "a.js" "b.js"
           Scenarios.good_out (Toy.boot Toy.disk)).
  - by_evaluation.
  - by_evaluation.
  - by_evaluation.
  - by_evaluation.
  - by_evaluation.
  - by_evaluation.
  - intros q digest name [<-|[<-|[<-|[]]]]; vm_compute; discriminate.
  - apply result_pair. by_evaluation.
  - by_evaluation.
Defined.

(** X14. Two calls on the same source before the event loop has run are
    two misses: the engine is invoked twice, both calls return its
    output, and two write-backs of the same file wait, each with its own
    temporary name. *)
Theorem transformWithCache_twice_before_writeback `{Runtime}
    (src filename filename' out : string) (st st0 : State) (p : Path) :
  pending (world st) = [] →
  _getCacheFilename src st = (Ok p, st0) →
  Fs.existsSync (fs (world st)) p = false →
  engine_of (this st) src BABEL_OPTIONS = Ok out →
  ∃ st1 st2,
    transformWithCache src filename st = (Ok out, st1)
    ∧ transformWithCache src filename' st1 = (Ok out, st2)
    ∧ babel_calls (world st2) = S (S (babel_calls (world st)))
    ∧ fs (world st2) = fs (world st)
    ∧ pending (world st2)
      = [TMkdirp (path_dirname p)
           (path_join (path_dirname p) ("." ++ uuid_v4 (uuid_counter (world st))))
           p out;
         TMkdirp (path_dirname p)
           (path_join (path_dirname p)
              ("." ++ uuid_v4 (S (uuid_counter (world st)))))
           p out].
Proof.
  intros Hidle Hp Hmiss He.
  rewrite transformWithCache_eq, Hp.
  apply _getCacheFilename_ok in Hp as (Hw & Heng & d & Hd & Hpd).
  rewrite Hw, Hmiss, transform_eq, Heng, He. cbv zeta.
  eexists _, _. split; [reflexivity|].
  rewrite transformWithCache_eq.
  assert (Hd' : _cacheDir (acquired (this st0)) = Some d)
    by (unfold acquired; by destruct (_babel (this st0))).
  rewrite (_getCacheFilename_memo _ _ d) by exact Hd'.
  rewrite <- Hpd. cbn [world with_world this].
  assert (Hfs : ∀ w, fs (cacheWriteAsync p out w) = fs w) by done.
  rewrite !Hfs. cbn [fs count_babel_call].
  rewrite Hw, Hmiss, transform_eq. cbn [this world with_world].
  assert (Heng' : engine_of (acquired (this st0)) = engine_of (this st)).
  { rewrite <- Heng. unfold acquired, engine_of.
    destruct (_babel (this st0)) eqn:Hb; simpl; by rewrite ?Hb. }
  rewrite Heng', He. cbv zeta. split; [reflexivity|].
  unfold cacheWriteAsync. simpl. by rewrite Hidle.
Qed.

Lemma transformWithCache_twice_before_writeback_witness :
  ∃ st1 st2,
    transformWithCache Toy.good_src "a.js" (Toy.boot Toy.disk)
    = (Ok Scenarios.good_out, st1)
    ∧ transformWithCache Toy.good_src "b.js" st1 = (Ok Scenarios.good_out, st2)
    ∧ babel_calls (world st2) = S (S (babel_calls (world (Toy.boot Toy.disk))))
    ∧ fs (world st2) = fs (world (Toy.boot Toy.disk))
    ∧ pending (world st2)
      = [TMkdirp (path_dirname Toy.good_cache_file)
           (path_join (path_dirname Toy.good_cache_file)
              ("." ++ uuid_v4 (uuid_counter (world (Toy.boot Toy.disk)))))
           Toy.good_cache_file Scenarios.good_out;
         TMkdirp (path_dirname Toy.good_cache_file)
           (path_join (path_dirname Toy.good_cache_file)
              ("." ++ uuid_v4 (S (uuid_counter (world (Toy.boot Toy.disk))))))
           Toy.good_cache_file Scenarios.good_out].
Proof.
  apply (transformWithCache_twice_before_writeback Toy.good_src "a.js" "b.js"
           Scenarios.good_out (Toy.boot Toy.disk)
           (snd (_getCacheFilename Toy.good_src (Toy.boot Toy.disk)))
           Toy.good_cache_file).
  - by_evaluation.
  - apply result_pair. by_evaluation.
  - by_evaluation.
  - by_evaluation.
Defined.

(** ** Two write-backs of one file *)

Lemma mkdirp_from_again (rest : list string) (f f' : Fs.FS) (cur : Path) :
  Fs.mkdirp_from f cur rest = Ok f' → Fs.mkdirp_from f' cur rest = Ok f'.
Proof.
  revert f cur. induction rest as [|c rest IH]; intros f cur Hmk; [done|].
  pose proof (mkdirp_from_lookup _ _ _ _ Hmk) as [Hkeep _].
  simpl in *.
  destruct (f !! cur) as [[? ?|[|]]|] eqn:Hcur; try done.
  rewrite (Hkeep _ _ Hcur).
  destruct (f !! path_join cur c) as [[? ?|a]|] eqn:Hnext; try done.
  - rewrite (Hkeep _ _ Hnext). eauto.
  - pose proof (mkdirp_from_lookup _ _ _ _ Hmk) as [Hkeep' _].
    rewrite (Hkeep' (path_join cur c) (Fs.Dir true)) by apply lookup_insert_eq.
    eauto.
Qed.

Lemma resolve_parent_insert (f : Fs.FS) (sc sc' : string) (p x : Path)
    (n : Fs.Node) :
  Fs.resolve_parent f sc p = Ok tt → (length p ≤ length x)%nat →
  Fs.resolve_parent (<[x := n]> f) sc' p = Ok tt.
Proof.
  rewrite !resolve_parent_ok. intros Hp Hlen k Hk.
  rewrite lookup_insert_ne; [auto|].
  intros E. apply (f_equal length) in E. rewrite length_take in E. lia.
Qed.

Lemma resolve_parent_delete (f : Fs.FS) (sc sc' : string) (p x : Path) :
  Fs.resolve_parent f sc p = Ok tt → (length p ≤ length x)%nat →
  Fs.resolve_parent (delete x f) sc' p = Ok tt.
Proof.
  rewrite !resolve_parent_ok. intros Hp Hlen k Hk.
  rewrite lookup_delete_ne; [auto|].
  intros E. apply (f_equal length) in E. rewrite length_take in E. lia.
Qed.

Lemma writeFile_fresh (f : Fs.FS) (p : Path) (data : string) :
  Fs.resolve_parent f "open" p = Ok tt → f !! p = None →
  Fs.writeFile f p data = Ok (<[p := Fs.File data true]> f).
Proof. intros Hp Hl. unfold Fs.writeFile. by rewrite Hp, Hl. Qed.

Lemma rename_file (f : Fs.FS) (old new : Path) (c : string) (a : bool) :
  Fs.resolve_parent f "rename" old = Ok tt → f !! old = Some (Fs.File c a) →
  Fs.resolve_parent f "rename" new = Ok tt →
  (∀ b, f !! new ≠ Some (Fs.Dir b)) →
  Fs.rename f old new = Ok (<[new := Fs.File c a]> (delete old f)).
Proof.
  intros Hp Hl Hp' Hnew. unfold Fs.rename, Fs.stat. rewrite Hp, Hl, Hp'.
  destruct (f !! new) as [[? ?|b]|] eqn:Hn; try done.
  by destruct (Hnew b).
Qed.

Lemma ok_by_failure {A} (r : Result A) (d : A) :
  failure r = None → r = Ok (match r with Ok a => a | Throw _ => d end).
Proof. by destruct r. Qed.

Lemma tick_head `{Runtime} (w : World) (t : Task) (q : list Task) :
  pending w = t :: q → tick w = run_task t (set_pending q w).
Proof. unfold tick. by intros ->. Qed.

(** X15. Two write-backs of the same output to the same file, queued one
    after the other (the state after two misses in a row), do not get in
    each other's way: with temporary names that are new and different,
    and a directory that takes the first temporary file, the event loop
    ends with the output under the final name, no temporary file left
    and nothing on the console. *)
Theorem writebacks_of_same_file `{Runtime} (filename : Path) (src : string)
    (w : World) (f1 f2 : Fs.FS) :
  let basedir := path_dirname filename in
  let tmp1 := path_join basedir ("." ++ uuid_v4 (uuid_counter w)) in
  let tmp2 := path_join basedir ("." ++ uuid_v4 (S (uuid_counter w))) in
  pending w = [] →
  tmp1 ≠ tmp2 → tmp1 ≠ filename → tmp2 ≠ filename →
  fs w !! tmp1 = None → fs w !! tmp2 = None →
  (∀ a, fs w !! filename ≠ Some (Fs.Dir a)) →
  Fs.mkdirp (fs w) basedir = Ok f1 →
  Fs.writeFile f1 tmp1 src = Ok f2 →
  let w' := run_event_loop
              (cacheWriteAsync filename src (cacheWriteAsync filename src w)) in
  pending w' = []
  ∧ console w' = console w
  ∧ fs w' = <[filename := Fs.File src true]> f1
  ∧ Fs.readFileSync (fs w') filename = Ok src
  ∧ fs w' !! tmp1 = None ∧ fs w' !! tmp2 = None.
Proof.
  intros basedir tmp1 tmp2 Hidle H12 H1f H2f Hfree1 Hfree2 Hnodir Hmk Hwr w'.
  (* the three paths are siblings *)
  assert (Hdir1 : path_dirname tmp1 = basedir)
    by (unfold tmp1, path_dirname, path_join; by rewrite removelast_last).
  assert (Hdir2 : path_dirname tmp2 = basedir)
    by (unfold tmp2, path_dirname, path_join; by rewrite removelast_last).
  assert (Hf1_1 : f1 !! tmp1 = None).
  { rewrite <- Hfree1. apply mkdirp_beside. by rewrite Hdir1. }
  assert (Hf1_2 : f1 !! tmp2 = None).
  { rewrite <- Hfree2. apply mkdirp_beside. by rewrite Hdir2. }
  assert (Hf1_f : f1 !! filename = fs w !! filename) by by apply mkdirp_beside.
  pose proof Hwr as Hwr'. apply writeFile_ok in Hwr' as (-> & Hp1 & _).
  assert (Hne : filename ≠ []).
  { intros ->. rewrite resolve_parent_ok in Hp1.
    specialize (Hp1 0%nat). rewrite take_0 in Hp1.
    eapply Hnodir. rewrite <- Hf1_f. apply Hp1.
    unfold tmp1, path_join. rewrite length_app. simpl. lia. }
  destruct (path_join_dirname filename Hne) as [name Hname].
  fold basedir in Hname.
  assert (Hlenf : length filename = (length basedir + 1)%nat).
  { pose proof (f_equal length Hname) as Hl. unfold path_join in Hl.
    by rewrite length_app in Hl. }
  assert (Hlen1 : length tmp1 = length filename).
  { unfold tmp1, path_join. rewrite length_app. simpl. lia. }
  assert (Hlen2 : length tmp2 = length filename).
  { unfold tmp2, path_join. rewrite length_app. simpl. lia. }
  assert (Hp2 : Fs.resolve_parent f1 "open" tmp2 = Ok tt)
    by (eapply (same_parent basedir _ _ f1 "open" "open"); exact Hp1).
  assert (Hpf : Fs.resolve_parent f1 "rename" filename = Ok tt).
  { rewrite Hname.
    eapply (same_parent basedir _ name f1 "open" "rename"); exact Hp1. }
  set (F := Fs.File src true) in *.
  set (g2 := <[tmp1 := F]> f1) in *.
  set (g3 := <[tmp2 := F]> g2).
  set (g4 := <[filename := F]> (delete tmp1 g3)).
  set (g5 := <[filename := F]> (delete tmp2 g4)).
  assert (E2 : Fs.mkdirp f1 basedir = Ok f1) by by apply mkdirp_from_again in Hmk.
  assert (E4 : Fs.writeFile g2 tmp2 src = Ok g3).
  { apply writeFile_fresh.
    - apply resolve_parent_insert with (sc := "open"); [done|lia].
    - unfold g2. by rewrite lookup_insert_ne. }
  assert (E5 : Fs.rename g3 tmp1 filename = Ok g4).
  { apply rename_file.
    - unfold g3, g2.
      do 2 (apply resolve_parent_insert with (sc := "open"); [|lia]). done.
    - unfold g3, g2. rewrite lookup_insert_ne by done. apply lookup_insert_eq.
    - unfold g3, g2.
      do 2 (apply resolve_parent_insert with (sc := "rename"); [|lia]). done.
    - intros a. unfold g3, g2. rewrite !lookup_insert_ne by done.
      rewrite Hf1_f. apply Hnodir. }
  assert (E6 : Fs.rename g4 tmp2 filename = Ok g5).
  { assert (Hres : ∀ p sc, length p = length filename →
              Fs.resolve_parent f1 sc p = Ok tt →
              Fs.resolve_parent g4 "rename" p = Ok tt).
    { intros p sc Hlen Hp. unfold g4, g3, g2.
      apply resolve_parent_insert with (sc := sc); [|lia].
      apply resolve_parent_delete with (sc := sc); [|lia].
      do 2 (apply resolve_parent_insert with (sc := sc); [|lia]). done. }
    apply rename_file.
    - by apply (Hres tmp2 "open").
    - unfold g4, g3. rewrite lookup_insert_ne by done.
      rewrite lookup_delete_ne by done. apply lookup_insert_eq.
    - by apply (Hres filename "rename").
    - intros a. unfold g4. by rewrite lookup_insert_eq. }
  assert (Hfinal : g5 = <[filename := F]> f1).
  { apply map_eq. intros q. unfold g5, g4, g3, g2.
    destruct (decide (q = filename)) as [->|Hqf];
      [by rewrite !lookup_insert_eq|].
    rewrite !(lookup_insert_ne _ filename) by done.
    destruct (decide (q = tmp2)) as [->|Hq2].
    { by rewrite lookup_delete_eq. }
    rewrite lookup_delete_ne, lookup_insert_ne by done.
    destruct (decide (q = tmp1)) as [->|Hq1].
    { by rewrite lookup_delete_eq. }
    by rewrite lookup_delete_ne, !lookup_insert_ne by done. }
  (* the six turns *)
  assert (Hrun : w' = set_fs g5 (snd (next_uuid (snd (next_uuid w))))).
  { pose (W := λ (f' : Fs.FS) (q : list Task),
              {| fs := f'; console := console w; pending := q;
                 uuid_counter := S (S (uuid_counter w));
                 babel_calls := babel_calls w |}).
    set (Mk1 := TMkdirp basedir tmp1 filename src).
    set (Mk2 := TMkdirp basedir tmp2 filename src).
    set (Wr1 := TWriteFile tmp1 filename src).
    set (Wr2 := TWriteFile tmp2 filename src).
    set (Rn1 := TRename tmp1 filename). set (Rn2 := TRename tmp2 filename).
    assert (S0 : cacheWriteAsync filename src (cacheWriteAsync filename src w)
                 = W (fs w) [Mk1; Mk2])
      by (unfold cacheWriteAsync, W; simpl; by rewrite Hidle).
    assert (S1 : tick (W (fs w) [Mk1; Mk2]) = W f1 [Mk2; Wr1])
      by (unfold tick, W; simpl; by rewrite Hmk).
    assert (S2 : tick (W f1 [Mk2; Wr1]) = W f1 [Wr1; Wr2])
      by (unfold tick, W; simpl; by rewrite E2).
    assert (S3 : tick (W f1 [Wr1; Wr2]) = W g2 [Wr2; Rn1])
      by (unfold tick, W; simpl; by rewrite Hwr).
    assert (S4 : tick (W g2 [Wr2; Rn1]) = W g3 [Rn1; Rn2])
      by (unfold tick, W; simpl; by rewrite E4).
    assert (S5 : tick (W g3 [Rn1; Rn2]) = W g4 [Rn2])
      by (unfold tick, W; simpl; by rewrite E5).
    assert (S6 : tick (W g4 [Rn2]) = W g5 [])
      by (unfold tick, W; simpl; by rewrite E6).
    unfold w', run_event_loop. rewrite S0.
    change (queue_weight (pending (W (fs w) [Mk1; Mk2]))) with 8%nat.
    rewrite Nat.iter_succ_r, S1, Nat.iter_succ_r, S2, Nat.iter_succ_r, S3,
      Nat.iter_succ_r, S4, Nat.iter_succ_r, S5, Nat.iter_succ_r, S6.
    rewrite iter_tick_idle by done. unfold W. simpl. by rewrite Hidle. }
  rewrite Hrun, Hfinal. simpl.
  split; [done|]. split; [done|]. split; [done|]. split.
  - apply readFileSync_stat, stat_ok. split; [|apply lookup_insert_eq].
    apply resolve_parent_insert with (sc := "rename"); [done|lia].
  - by rewrite !lookup_insert_ne by done.
Qed.

Lemma writebacks_of_same_file_witness :
  pending (run_event_loop
             (cacheWriteAsync Toy.good_cache_file Scenarios.good_out
                (cacheWriteAsync Toy.good_cache_file Scenarios.good_out
                   (world (Toy.boot Toy.disk))))) = []
  ∧ console (run_event_loop
               (cacheWriteAsync Toy.good_cache_file Scenarios.good_out
                  (cacheWriteAsync Toy.good_cache_file Scenarios.good_out
                     (world (Toy.boot Toy.disk)))))
    = console (world (Toy.boot Toy.disk))
  ∧ Fs.readFileSync
      (fs (run_event_loop
             (cacheWriteAsync Toy.good_cache_file Scenarios.good_out
                (cacheWriteAsync Toy.good_cache_file Scenarios.good_out
                   (world (Toy.boot Toy.disk))))))
      Toy.good_cache_file = Ok Scenarios.good_out.
Proof.
  destruct (writebacks_of_same_file Toy.good_cache_file Scenarios.good_out
              (world (Toy.boot Toy.disk))
              (Fixtures.namespace_made Toy.disk Toy.good_cache_file)
              (Fixtures.file_written
                 (Fixtures.namespace_made Toy.disk Toy.good_cache_file)
                 Scenarios.tmp_file Scenarios.good_out))
    as (Hq & Hc & _ & Hr & _).
  - by_evaluation.
  - vm_compute. discriminate.
  - vm_compute. discriminate.
  - vm_compute. discriminate.
  - by_evaluation.
  - by_evaluation.
  - intros a. vm_compute. discriminate.
  - apply ok_by_failure. by_evaluation.
  - apply ok_by_failure. by_evaluation.
  - split; [exact Hq|]. split; [exact Hc|exact Hr].
Defined.

(** ** The constructor and the directives *)

(** X16. Which engine a transpiler uses is settled by its construction:
    with a non-empty version and a [getBabel], [transform] answers with
    that engine; without a version, or with the empty string for one, the
    bundled babel is used and the given [getBabel] is ignored; and a
    non-empty version without a [getBabel] fails the assertion. *)
Theorem new_NodeTranspiler_engine `{Runtime} (v : string) (g : unit → Babel)
    (src filename : string) (w : World) :
  (Js.truthy v = true →
   ∃ t, new_NodeTranspiler (Some v) (Some g) = Ok t
        ∧ _babelVersion t = v
        ∧ fst (transform src filename {| this := t; world := w |})
          = g tt src BABEL_OPTIONS)
  ∧ (Js.truthy v = false →
     ∃ t, new_NodeTranspiler (Some v) (Some g) = Ok t
          ∧ _babelVersion t = babel_core_version
          ∧ fst (transform src filename {| this := t; world := w |})
            = babel_core src BABEL_OPTIONS)
  ∧ (∃ t, new_NodeTranspiler None (Some g) = Ok t
          ∧ _babelVersion t = babel_core_version
          ∧ fst (transform src filename {| this := t; world := w |})
            = babel_core src BABEL_OPTIONS)
  ∧ (Js.truthy v = true →
     new_NodeTranspiler (Some v) None = Throw AssertionError).
Proof.
  unfold new_NodeTranspiler.
  split; [|split; [|split]].
  - intros ->. eexists. split; [reflexivity|]. split; [reflexivity|].
    rewrite transform_eq. unfold engine_of. simpl.
    by destruct (g tt src BABEL_OPTIONS).
  - intros ->. eexists. split; [reflexivity|]. split; [reflexivity|].
    rewrite transform_eq. unfold engine_of. simpl.
    by destruct (babel_core src BABEL_OPTIONS).
  - eexists. split; [reflexivity|]. split; [reflexivity|].
    rewrite transform_eq. unfold engine_of. simpl.
    by destruct (babel_core src BABEL_OPTIONS).
  - by intros ->.
Qed.

Lemma new_NodeTranspiler_engine_witness :
  (∃ t, new_NodeTranspiler (Some "6.0.0") (Some (λ _, Toy.babel)) = Ok t
        ∧ _babelVersion t = "6.0.0"
        ∧ fst (transform Toy.good_src "a.js"
                 {| this := t; world := world (Toy.boot Toy.disk) |})
          = Toy.babel Toy.good_src BABEL_OPTIONS)
  ∧ new_NodeTranspiler (Some "6.0.0") None = Throw AssertionError.
Proof.
  destruct (new_NodeTranspiler_engine "6.0.0" (λ _, Toy.babel) Toy.good_src
              "a.js" (world (Toy.boot Toy.disk))) as (Hgiven & _ & _ & Hno).
  split; [apply Hgiven; by_evaluation | apply Hno; by_evaluation].
Defined.

(** X17. No input begins with two different directives; an input that
    begins with one is accepted by [shouldCompile] and has at least 11
    characters. *)
Theorem directive_unique (s p q : string) :
  In p PREFIXES → In q PREFIXES →
  String.prefix p s = true → String.prefix q s = true →
  p = q ∧ shouldCompile s = true ∧ (11 ≤ String.length s)%nat.
Proof.
  intros Hp Hq Hps Hqs.
  assert (Hlen : (11 ≤ String.length s)%nat).
  { apply prefix_iff_app in Hps as [rest ->]. rewrite length_append.
    simpl in Hp. destruct Hp as [<-|[<-|[<-|[<-|[]]]]]; simpl; lia. }
  split; [|split; [|done]].
  - apply prefix_iff_app in Hps as [rest ->].
    apply prefix_iff_app in Hqs as [rest' Heq].
    simpl in Hp, Hq.
    destruct Hp as [<-|[<-|[<-|[<-|[]]]]];
      destruct Hq as [<-|[<-|[<-|[<-|[]]]]];
      try reflexivity; simpl in Heq; discriminate Heq.
  - rewrite shouldCompile_unfold, existsb_exists. eauto.
Qed.

Lemma directive_unique_witness :
  "/* @flow */" = "/* @flow */"
  ∧ shouldCompile "/* @flow */ const x = 1;" = true
  ∧ (11 ≤ String.length "/* @flow */ const x = 1;")%nat.
Proof.
  apply (directive_unique "/* @flow */ const x = 1;" "/* @flow */" "/* @flow */").
  - right. right. left. reflexivity.
  - right. right. left. reflexivity.
  - reflexivity.
  - reflexivity.
Defined.
